(** * raymarching.py: the SDF node model and the GLSL text generator

    A shallow embedding of [raymarching/raymarching.py].  Python objects
    of class [SDF] live in the class-level list [SDF.__generated_sdfs];
    the embedding keeps that list as the store and uses positions in it
    as object references.  Strings are [string], the parameter dict is
    a [gmap string param], Python exceptions are the [Raise] outcome of
    a small error monad. *)

From Stdlib Require Import ZArith Ascii DecimalString DecimalNat.
From stdpp Require Import base option list sorting gmap strings fin_maps.

(** ** Outcomes of a call *)

Module Py.

(** The exceptions the module raises itself, with their messages. *)
Inductive exn :=
| ValueError (msg : string)
| IndexError (msg : string).

(** [Ok v]: the call returned [v].  [Raise e]: it raised [e].  [Stuck]:
    the embedding could not follow the call, because a reference points
    outside the store or the recursion budget ran out; no Python run
    corresponds to it, and [wf_store] below excludes it. *)
Inductive result (A : Type) :=
| Ok (a : A)
| Raise (e : exn)
| Stuck.
Arguments Ok {A} a.
Arguments Raise {A} e.
Arguments Stuck {A}.

Definition bind {A B} (r : result A) (k : A → result B) : result B :=
  match r with
  | Ok a => k a
  | Raise e => Raise e
  | Stuck => Stuck
  end.

Definition of_option {A} (o : option A) : result A :=
  match o with Some a => Ok a | None => Stuck end.

Fixpoint mapM {A B} (f : A → result B) (l : list A) : result (list B) :=
  match l with
  | [] => Ok []
  | x :: l' => bind (f x) (λ y, bind (mapM f l') (λ ys, Ok (y :: ys)))
  end.

Definition raises {A} (r : result A) : Prop :=
  match r with Raise _ => True | _ => False end.

Definition raises_ValueError {A} (r : result A) : Prop :=
  match r with Raise (ValueError _) => True | _ => False end.

End Py.
Import Py.

#[global] Instance result_bind : MBind result := λ A B k r, Py.bind r k.
#[global] Instance result_ret : MRet result := λ A a, Ok a.

(** ** Python string helpers *)

(** [str(i)] of a non-negative [int]. *)
Definition str_nat (n : nat) : string :=
  NilZero.string_of_uint (Nat.to_uint n).

(** [str(i)] of an [int]. *)
Definition str_int (z : Z) : string :=
  NilZero.string_of_int (Z.to_int z).

(** [s[:-2]]: everything but the last two characters; empty when the
    string has fewer than two. *)
Definition slice_to_neg2 (s : string) : string :=
  String.substring 0 (String.length s - 2) s.

(** [s * n] for a [str] and a count; a count below one gives [""]. *)
Fixpoint str_mul (s : string) (n : nat) : string :=
  match n with
  | O => ""
  | S n' => s +:+ str_mul s n'
  end.

(** ["".join(l)]. *)
Definition join (l : list string) : string :=
  foldr String.append "" l.

(** [s.replace("\n", "\\\n")]: every line feed gets a backslash in
    front of it. *)
Fixpoint escape_newlines (s : string) : string :=
  match s with
  | EmptyString => EmptyString
  | String c s' =>
      if Ascii.eqb c "010"%char
      then String "\"%char (String c (escape_newlines s'))
      else String c (escape_newlines s')
  end.

Definition nl : string := String "010"%char EmptyString.

(** ** Vector arguments *)

(** What a caller may pass where a [vec3] or [vec4] is expected.  The
    code only asks whether the value is a [str], else whether it is
    iterable, and then takes [str(i)] of every item: an iterable is its
    list of item renderings, any other value is kept as its own
    rendering (used in the error message). *)
Inductive pyvalue :=
| PyStr (s : string)
| PyIterable (items : list string)
| PyOther (repr : string).

Definition to_glsl_vec (vec : pyvalue) (n : Z) : result string :=
  if bool_decide (n < 2 ∨ n > 4)%Z then
    Raise (ValueError ("Bad GLSL vector dimension " +:+ str_int n
                       +:+ ". GLSL supports only 2, 3 and 4."))
  else
    match vec with
    | PyStr s => Ok s
    | PyIterable items =>
        let answer := "vec" +:+ str_int n +:+ "(" in
        let answer := foldl (λ answer i, answer +:+ i +:+ ", ") answer items in
        Ok (slice_to_neg2 answer +:+ ")")
    | PyOther repr =>
        Raise (ValueError ("Cannot convert '" +:+ repr
                           +:+ "' to GLSL's vec" +:+ str_int n))
    end.

(** ** Nodes and the store *)

(** A reference to an [SDF] object: its position in
    [SDF.__generated_sdfs], which holds every object ever built. *)
Abbreviation ref := nat.

(** A value of the [parameters] dict: a [(param_type, param_value)]
    tuple or another [SDF]. *)
Inductive param :=
| Lit (param_type param_value : string)
| Child (sdf : ref).

(** The concrete classes. *)
Module Cls.
Inductive t :=
| Emptiness | Sphere | AABBox | Plane | Cylinder
| SDFOperator | Intersection | Union | SmoothUnion | Difference.
End Cls.

(** The attributes of an instance.  [objects] and [func] exist on the
    [SDFOperator] classes only and rest at [[]] and [""] elsewhere. *)
Record SDF := mkSDF {
  id : nat;
  cls : Cls.t;
  parameters : gmap string param;
  translation : option string;
  rotation : option string;
  scale : string;
  objects : list ref;
  func : string;
}.

Definition set_parameters (d : gmap string param) (o : SDF) : SDF :=
  mkSDF (id o) (cls o) d (translation o) (rotation o) (scale o) (objects o) (func o).
Definition set_translation (t : option string) (o : SDF) : SDF :=
  mkSDF (id o) (cls o) (parameters o) t (rotation o) (scale o) (objects o) (func o).
Definition set_rotation (q : option string) (o : SDF) : SDF :=
  mkSDF (id o) (cls o) (parameters o) (translation o) q (scale o) (objects o) (func o).
Definition set_scale (k : string) (o : SDF) : SDF :=
  mkSDF (id o) (cls o) (parameters o) (translation o) (rotation o) k (objects o) (func o).
Definition set_objects (l : list ref) (o : SDF) : SDF :=
  mkSDF (id o) (cls o) (parameters o) (translation o) (rotation o) (scale o) l (func o).
Definition set_func (f : string) (o : SDF) : SDF :=
  mkSDF (id o) (cls o) (parameters o) (translation o) (rotation o) (scale o) (objects o) f.

(** [SDF.__generated_sdfs]. *)
Abbreviation store := (list SDF).

(** An [Optional[str]] inside an f-string. *)
Definition fmt_opt (o : option string) : string :=
  match o with Some s => s | None => "None" end.

(** [sorted(self.parameters)]: the keys, ascending in the order of
    [str], which compares character codes from the left. *)
Definition sorted (d : gmap string param) : list string :=
  merge_sort String.le (map_to_list d).*1.

(** [seq[-k]] for [k >= 1]. *)
Definition index_neg {A} (k : nat) (l : list A) : result A :=
  if decide (k ≤ length l) then of_option (l !! (length l - k))
  else Raise (IndexError "tuple index out of range").

(** [seq[:-2]]. *)
Definition list_slice_to_neg2 {A} (l : list A) : list A :=
  take (length l - 2) l.

(** [o.id] of a referenced object. *)
Definition id_of (st : store) (r : ref) : result nat :=
  o ← of_option (st !! r); Ok (id o).

Definition glsl_struct_name (self : SDF) : string :=
  "SDF" +:+ str_nat (id self).

(** [SDFOperator.sdist].  The ids of the children are read first (the
    code reads each where it formats it; reading cannot fail there). *)
Definition SDFOperator_sdist (st : store) (self : SDF) : result string :=
  ids ← mapM (id_of st) (objects self);
  let answer := "return " +:+ func self +:+ "(" in
  let answer :=
    foldl (λ answer o, answer +:+ "sdist(p, o.o" +:+ str_nat o +:+ "), "
                       +:+ func self +:+ "(")
          answer (list_slice_to_neg2 ids) in
  a ← index_neg 2 ids;
  b ← index_neg 1 ids;
  Ok (answer +:+ "sdist(p, o.o" +:+ str_nat a +:+ "), sdist(p, o.o"
      +:+ str_nat b +:+ ")" +:+ str_mul ")" (length ids - 1) +:+ ";").

(** [SmoothUnion.sdist]. *)
Definition SmoothUnion_sdist (st : store) (self : SDF) : result string :=
  ids ← mapM (id_of st) (objects self);
  let answer := "return " +:+ func self +:+ "(" in
  let answer :=
    foldl (λ answer o, answer +:+ "sdist(p, o.o" +:+ str_nat o +:+ "), "
                       +:+ func self +:+ "(")
          answer (list_slice_to_neg2 ids) in
  a ← index_neg 2 ids;
  b ← index_neg 1 ids;
  Ok (answer +:+ "sdist(p, o.o" +:+ str_nat a +:+ "), sdist(p, o.o"
      +:+ str_nat b +:+ ")" +:+ str_mul ", o.k)" (length ids - 1) +:+ ";").

(** [self.sdist()], dispatched on the class of [self]. *)
Definition sdist (st : store) (self : SDF) : result string :=
  match cls self with
  | Cls.Emptiness => Ok "return INF;"
  | Cls.Sphere => Ok "return length(p) - 1.0;"
  | Cls.AABBox =>
      Ok "vec3 d = abs(p) - o.r; return min(max(d.x, max(d.y, d.z)), 0.0) + length(max(d, 0.0));"
  | Cls.Plane => Ok "return abs(p.y);"
  | Cls.Cylinder =>
      Ok ("vec2 d = vec2(length(p.xz) - o.radius, abs(p.y) - o.height2); " +:+ nl
          +:+ "                  return min(max(d.x, d.y), 0.0) + length(max(d, 0.0));")
  | Cls.SDFOperator | Cls.Intersection | Cls.Union => SDFOperator_sdist st self
  | Cls.SmoothUnion => SmoothUnion_sdist st self
  | Cls.Difference => Ok "return max(sdist(p, o.o1), -sdist(p, o.o2));"
  end.

(** [self.parameters[param][0]]: the type of a tuple, or through
    [SDF.__getitem__] the struct name of a child. *)
Definition getitem0 (st : store) (p : param) : result string :=
  match p with
  | Lit ty _ => Ok ty
  | Child r => o ← of_option (st !! r); Ok (glsl_struct_name o)
  end.

(** The [(type, name)] pairs [declaration] walks through, in its order. *)
Definition declaration_fields (st : store) (self : SDF)
  : result (list (string * string)) :=
  mapM (λ param, p ← of_option (parameters self !! param);
                 ty ← getitem0 st p;
                 Ok (ty, param))
       (sorted (parameters self)).

Definition declaration (st : store) (self : SDF) : result string :=
  fields ← declaration_fields st self;
  body ← sdist st self;
  Ok ("SDFType(" +:+ glsl_struct_name self +:+ "," +:+ nl
      +:+ "{" +:+ nl
      +:+ join (map (λ f, f.1 +:+ " " +:+ f.2 +:+ ";" +:+ nl) fields)
      +:+ "Transform t;" +:+ nl +:+ "}," +:+ nl
      +:+ "{" +:+ nl +:+ body +:+ nl +:+ "})").

Definition transform_text (self : SDF) : string :=
  "Transform(" +:+ fmt_opt (rotation self) +:+ ", "
  +:+ fmt_opt (translation self) +:+ ", " +:+ scale self +:+ "))".

(** [initialisation] together with the [(name, value)] pairs it walks
    through.  [self.parameters[param][1]] is the value of a tuple, or
    through [SDF.__getitem__] the initialisation of a child: the
    recursion follows references, so it carries a budget. *)
Fixpoint initialisation_values (fuel : nat) (st : store) (self : SDF)
  : result (list (string * string)) :=
  match fuel with
  | O => Stuck
  | S fuel' =>
      mapM (λ param,
              p ← of_option (parameters self !! param);
              v ← match p with
                  | Lit _ v => Ok v
                  | Child r =>
                      o ← of_option (st !! r);
                      vs ← initialisation_values fuel' st o;
                      Ok (glsl_struct_name o +:+ "("
                          +:+ join (map (λ nv, nv.2 +:+ ", ") vs)
                          +:+ transform_text o)
                  end;
              Ok (param, v))
           (sorted (parameters self))
  end.

Definition initialisation (fuel : nat) (st : store) (self : SDF) : result string :=
  vs ← initialisation_values fuel st self;
  Ok (glsl_struct_name self +:+ "("
      +:+ join (map (λ nv, nv.2 +:+ ", ") vs)
      +:+ transform_text self).

(** ** Construction *)

(** Continue with [k] when [r] returned, else leave the store as it is
    and pass the exception on. *)
Definition on_ok {A B} (st : store) (r : result A)
    (k : A → store * result B) : store * result B :=
  match r with
  | Ok a => k a
  | Raise e => (st, Raise e)
  | Stuck => (st, Stuck)
  end.

(** [SDF.__init__]: the new object takes the length of the list as its
    [id] and is appended to it. *)
Definition SDF_init (c : Cls.t) (st : store) : store * ref :=
  let self := mkSDF (length st) c ∅ (Some "vec3(0, 0, 0)")
                    (Some "vec4(0, 0, 0, 1)") "1" [] "" in
  (st ++ [self], length st).

Definition Emptiness_init (st : store) : store * result ref :=
  let '(st, self) := SDF_init Cls.Emptiness st in (st, Ok self).

Definition Sphere_init (st : store) : store * result ref :=
  let '(st, self) := SDF_init Cls.Sphere st in (st, Ok self).

Definition Plane_init (st : store) : store * result ref :=
  let '(st, self) := SDF_init Cls.Plane st in (st, Ok self).

(** [self.parameters |= new]: the entries of [new] win. *)
Definition update_parameters (new : gmap string param) (o : SDF) : SDF :=
  set_parameters (new ∪ parameters o) o.

(** [AABBox.__init__]: the object is registered before [r] is
    converted, so a bad [r] leaves it in the list without parameter. *)
Definition AABBox_init (r : pyvalue) (st : store) : store * result ref :=
  let '(st, self) := SDF_init Cls.AABBox st in
  on_ok st (to_glsl_vec r 3) (λ v,
    (alter (update_parameters {[ "r" := Lit "vec3" v ]}) self st, Ok self)).

(** [Cylinder.__init__]; the arguments are [str(radius)] and
    [str(height2)]. *)
Definition Cylinder_init (radius height2 : string) (st : store)
  : store * result ref :=
  let '(st, self) := SDF_init Cls.Cylinder st in
  (alter (update_parameters
            (<[ "radius" := Lit "float" radius ]>
               {[ "height2" := Lit "float" height2 ]})) self st,
   Ok self).

(** [{f"o{sdf.id}": sdf for sdf in args}]: a later entry with the same
    key replaces an earlier one. *)
Definition children_dict (kvs : list (nat * ref)) : gmap string param :=
  foldl (λ d kv, <[ "o" +:+ str_nat kv.1 := Child kv.2 ]> d) ∅ kvs.

(** [SDFOperator.__init__] for the class [c].  The arguments are
    objects that exist before the call, so they are looked up in the
    store as it is before [self] is appended. *)
Definition SDFOperator_init (c : Cls.t) (f : string) (args : list ref)
    (st : store) : store * result ref :=
  on_ok st (mapM (λ r, i ← id_of st r; Ok (i, r)) args) (λ kvs,
    let '(st, self) := SDF_init c st in
    (alter (λ o, set_func f
                   (update_parameters (children_dict kvs)
                      (set_objects args o))) self st,
     Ok self)).

Definition Intersection_init (args : list ref) (st : store) :=
  SDFOperator_init Cls.Intersection "max" args st.

Definition Union_init (args : list ref) (st : store) :=
  SDFOperator_init Cls.Union "min" args st.

(** [SmoothUnion.__init__]; [k] is [str(k)]. *)
Definition SmoothUnion_init (k : string) (args : list ref) (st : store)
  : store * result ref :=
  let '(st, r) := SDFOperator_init Cls.SmoothUnion "smin" args st in
  on_ok st r (λ self,
    (alter (update_parameters {[ "k" := Lit "float" k ]}) self st, Ok self)).

Definition Difference_init (o1 o2 : ref) (st : store) : store * result ref :=
  on_ok st (mapM (id_of st) [o1; o2]) (λ _,
    let '(st, self) := SDF_init Cls.Difference st in
    (alter (update_parameters
              (<[ "o1" := Child o1 ]> {[ "o2" := Child o2 ]})) self st,
     Ok self)).

(** ** Transforms *)

Definition translated (self : ref) (tr : pyvalue) (st : store)
  : store * result ref :=
  on_ok st (of_option (st !! self)) (λ o,
    match translation o with
    | None =>
        on_ok st (to_glsl_vec tr 3) (λ v,
          (alter (set_translation (Some v)) self st, Ok self))
    | Some t =>
        on_ok st (to_glsl_vec tr 3) (λ v,
          (alter (set_translation (Some ("(" +:+ t +:+ " + " +:+ v +:+ ")")))
                 self st, Ok self))
    end).

Definition rotated_quaternion (self : ref) (q : pyvalue) (st : store)
  : store * result ref :=
  on_ok st (of_option (st !! self)) (λ _,
    on_ok st (to_glsl_vec q 4) (λ v,
      (alter (set_rotation (Some v)) self st, Ok self))).

(** [rotated]; [angle] is the text the f-string puts for it. *)
Definition rotated (self : ref) (u : pyvalue) (angle : string) (st : store)
  : store * result ref :=
  on_ok st (to_glsl_vec u 3) (λ v,
    rotated_quaternion self
      (PyStr ("vec4(" +:+ v +:+ " * cos((" +:+ angle +:+ ") / 2), sin(("
              +:+ angle +:+ ") / 2))")) st).

(** [scaled]; [k] is the text the f-string puts for it. *)
Definition scaled (self : ref) (k : string) (st : store)
  : store * result ref :=
  on_ok st (of_option (st !! self)) (λ o,
    (alter (set_scale ("(" +:+ scale o +:+ " * (" +:+ k +:+ "))")) self st,
     Ok self)).

(** ** Scene *)

(** A [Scene]: its name and its root.  The command-line shortcut of
    [Scene.__init__] is outside the embedding. *)
Record Scene := mkScene {
  name : option string;
  sdf : option ref;
}.

Definition set_sdf (r : ref) (sc : Scene) : Scene := mkScene (name sc) (Some r).

(** [template.readline()] and the [template.read()] after it: the text
    up to and with the first line feed, and what follows. *)
Fixpoint readline (s : string) : string * string :=
  match s with
  | EmptyString => (EmptyString, EmptyString)
  | String c s' =>
      if Ascii.eqb c "010"%char then (String c EmptyString, s')
      else let '(l, rest) := readline s' in (String c l, rest)
  end.

(** The first statement of [process]: an unset root becomes a new
    [Emptiness]. *)
Definition resolve_root (sc : Scene) (st : store) : Scene * store * ref :=
  match sdf sc with
  | None =>
      let '(st, self) := SDF_init Cls.Emptiness st in
      (mkScene (name sc) (Some self), st, self)
  | Some r => (sc, st, r)
  end.

(** [sdf_types]: the declarations of every object of the list. *)
Definition sdf_types (st : store) : result string :=
  decls ← mapM (declaration st) st;
  Ok (join (map (λ d, d +:+ ";" +:+ nl) decls)).

(** [sdscene]: the final statement. *)
Definition sdscene (st : store) (root : ref) : result string :=
  o ← of_option (st !! root);
  init ← initialisation (length st) st o;
  Ok ("return sdist(p, " +:+ init +:+ ");").

(** [Scene.process] on the text [tpl] of the template file; the result
    is the text handed to [print]. *)
Definition process (tpl : string) (sc : Scene) (st : store)
  : Scene * store * result string :=
  let '(sc, st, root) := resolve_root sc st in
  (sc, st,
   types ← sdf_types st;
   scene ← sdscene st root;
   let '(first, rest) := readline tpl in
   Ok (first
       +:+ "#define TEMPLATE_SDFTYPES \" +:+ nl
       +:+ escape_newlines types +:+ nl
       +:+ "#define TEMPLATE_SDSCENE \" +:+ nl
       +:+ escape_newlines scene +:+ nl
       +:+ rest)).

(** ** Runs *)

(** The calls a script can make on the module. *)
Inductive call :=
| NewEmptiness
| NewSphere
| NewPlane
| NewAABBox (r : pyvalue)
| NewCylinder (radius height2 : string)
| NewSDFOperator (f : string) (args : list ref)
| NewIntersection (args : list ref)
| NewUnion (args : list ref)
| NewSmoothUnion (k : string) (args : list ref)
| NewDifference (o1 o2 : ref)
| Translated (self : ref) (tr : pyvalue)
| Rotated (self : ref) (u : pyvalue) (angle : string)
| RotatedQuaternion (self : ref) (q : pyvalue)
| Scaled (self : ref) (k : string)
| Process (tpl : string) (sc : Scene).

(** The store after one call, whether it returned or raised. *)
Definition exec (c : call) (st : store) : store :=
  match c with
  | NewEmptiness => (Emptiness_init st).1
  | NewSphere => (Sphere_init st).1
  | NewPlane => (Plane_init st).1
  | NewAABBox r => (AABBox_init r st).1
  | NewCylinder radius height2 => (Cylinder_init radius height2 st).1
  | NewSDFOperator f args => (SDFOperator_init Cls.SDFOperator f args st).1
  | NewIntersection args => (Intersection_init args st).1
  | NewUnion args => (Union_init args st).1
  | NewSmoothUnion k args => (SmoothUnion_init k args st).1
  | NewDifference o1 o2 => (Difference_init o1 o2 st).1
  | Translated self tr => (translated self tr st).1
  | Rotated self u angle => (rotated self u angle st).1
  | RotatedQuaternion self q => (rotated_quaternion self q st).1
  | Scaled self k => (scaled self k st).1
  | Process tpl sc => (process tpl sc st).1.2
  end.

(** A generation run: the calls of a script in order, from the empty
    list the class starts with. *)
Definition run_from (st : store) (calls : list call) : store :=
  foldl (λ st c, exec c st) st calls.

Definition run (calls : list call) : store := run_from [] calls.

(** ** Notions the properties are stated with *)

(** The shape of a distance expression: the distance of the child
    stored under [key], or a call of a combining function on two
    sub-expressions with an optional further argument. *)
Inductive dexpr :=
| Leaf (key : string)
| Call (f : string) (l r : dexpr) (extra : option string).

Definition extra_text (extra : option string) : string :=
  match extra with Some e => ", " +:+ e | None => "" end.

(** The text of an expression, spaced as the code spaces it. *)
Fixpoint render (e : dexpr) : string :=
  match e with
  | Leaf key => "sdist(p, o." +:+ key +:+ ")"
  | Call f l r extra =>
      f +:+ "(" +:+ render l +:+ ", " +:+ render r +:+ extra_text extra +:+ ")"
  end.

(** [f(d0, f(d1, f(d2, d3)))]: the fold that nests to the right. *)
Fixpoint nest_right (f : string) (extra : option string) (d0 : string)
    (ds : list string) : dexpr :=
  match ds with
  | [] => Leaf d0
  | d1 :: ds' => Call f (Leaf d0) (nest_right f extra d1 ds') extra
  end.

(** [f(f(f(d0, d1), d2), d3)]: the fold that nests to the left. *)
Definition nest_left (f : string) (extra : option string) (d0 : string)
    (ds : list string) : dexpr :=
  foldl (λ acc d, Call f acc (Leaf d) extra) (Leaf d0) ds.

(** A fold over the keys of a list of children; [Leaf ""] stands for
    the fold of no child at all. *)
Definition fold_keys (nest : string → list string → dexpr) (keys : list string)
  : dexpr :=
  match keys with
  | [] => Leaf ""
  | d0 :: ds => nest d0 ds
  end.

(** The number of calls in an expression: its fold levels. *)
Fixpoint calls (e : dexpr) : nat :=
  match e with
  | Leaf _ => 0
  | Call _ l r _ => S (calls l + calls r)
  end.

(** Every call of the expression is a call of [f] with the further
    argument [extra]. *)
Fixpoint every_call (f : string) (extra : option string) (e : dexpr) : Prop :=
  match e with
  | Leaf _ => True
  | Call g l r x => g = f ∧ x = extra ∧ every_call f extra l ∧ every_call f extra r
  end.

(** The key an [SDFOperator] stores a child under. *)
Definition child_key (child_id : nat) : string := "o" +:+ str_nat child_id.

(** A sum of vector expressions, its text with the parentheses
    [translated] writes, and its value when every operand text has a
    value. *)
Inductive vsum :=
| Operand (text : string)
| Plus (a b : vsum).

Fixpoint vsum_text (e : vsum) : string :=
  match e with
  | Operand t => t
  | Plus a b => "(" +:+ vsum_text a +:+ " + " +:+ vsum_text b +:+ ")"
  end.

Fixpoint vsum_value {V} (add : V → V → V) (val : string → V) (e : vsum) : V :=
  match e with
  | Operand t => val t
  | Plus a b => add (vsum_value add val a) (vsum_value add val b)
  end.

(** What [self.parameters[param][1]] is for the entry [p], with the
    budget [fuel] left for the children. *)
Definition param_value (fuel : nat) (st : store) (p : param) (v : string) : Prop :=
  match p with
  | Lit _ v' => v = v'
  | Child r => ∃ o, st !! r = Some o ∧ initialisation fuel st o = Ok v
  end.

(** The store is well formed: the object at position [i] has [id] [i]
    and refers, in [objects] and in [parameters], to objects built
    before it. *)
Definition param_below (i : nat) (p : param) : Prop :=
  match p with Child r => r < i | Lit _ _ => True end.

Definition wf_node (i : nat) (o : SDF) : Prop :=
  id o = i
  ∧ Forall (λ r, r < i) (objects o)
  ∧ map_Forall (λ _ p, param_below i p) (parameters o).

Definition wf_store (st : store) : Prop :=
  Forall2 wf_node (seq 0 (length st)) st.

(** The precondition of the operator classes: at least two children. *)
Definition is_operator (c : Cls.t) : bool :=
  match c with
  | Cls.SDFOperator | Cls.Intersection | Cls.Union | Cls.SmoothUnion => true
  | _ => false
  end.

Definition arity_ok (o : SDF) : Prop :=
  is_operator (cls o) = true → 2 ≤ length (objects o).

(** What a transform call leaves alone. *)
Definition same_frame (o' o : SDF) : Prop :=
  id o' = id o ∧ cls o' = cls o ∧ parameters o' = parameters o
  ∧ objects o' = objects o ∧ func o' = func o.

(** How one call changes the list: not at all, one object in place
    with its frame kept, or one new object at the end. *)
Inductive grows (st : store) : store → Prop :=
| grows_same : grows st st
| grows_alter f self :
    (∀ o, same_frame (f o) o) → grows st (alter f self st)
| grows_new o :
    id o = length st → (wf_store st → wf_node (length st) o) →
    grows st (st ++ [o]).

(** The [id]s assigned by the constructions of a script, in the order
    the objects are built. *)
Fixpoint created_from (st : store) (script : list call) : list nat :=
  match script with
  | [] => []
  | c :: script' =>
      map id (drop (length st) (exec c st)) ++ created_from (exec c st) script'
  end.

#[global] Instance param_below_dec i p : Decision (param_below i p).
Proof. destruct p; simpl; apply _. Defined.

#[global] Instance wf_node_dec i o : Decision (wf_node i o).
Proof. unfold wf_node. apply _. Defined.

#[global] Instance wf_store_dec st : Decision (wf_store st).
Proof. unfold wf_store. apply _. Defined.

#[global] Instance arity_ok_dec o : Decision (arity_ok o).
Proof. unfold arity_ok. apply _. Defined.


(** ** Sample scripts *)

(** Three spheres and their [Union]. *)
Definition union_of_three : store :=
  run [NewSphere; NewSphere; NewSphere; NewUnion [0; 1; 2]].

(** Three spheres and their [Intersection]. *)
Definition intersection_of_three : store :=
  run [NewSphere; NewSphere; NewSphere; NewIntersection [0; 1; 2]].

(** The scene of a sphere and a box moved aside, joined by a [Union]. *)
Definition sphere_and_box : store :=
  run [NewSphere;
       NewAABBox (PyIterable ["1"; "1"; "1"]);
       Translated 1 (PyIterable ["2"; "0"; "0"]);
       NewUnion [0; 1]].

(** Two spheres and their [Difference]. *)
Definition difference_of_two : store :=
  run [NewSphere; NewSphere; NewDifference 0 1].

(** A sphere and a [Union] of that sphere alone. *)
Definition union_of_one : store :=
  run [NewSphere; NewUnion [0]].

(** A box moved aside, a cylinder, and their [SmoothUnion] with a
    sphere. *)
Definition smooth_scene : store :=
  run [NewSphere;
       NewAABBox (PyIterable ["1"; "1"; "1"]);
       Translated 1 (PyIterable ["2"; "0"; "0"]);
       NewCylinder "1" "2";
       NewSmoothUnion "0.5" [0; 1; 2]].

(** The [SmoothUnion] of [smooth_scene], the object 3 of its store. *)
Definition smooth_union_node : SDF :=
  mkSDF 3 Cls.SmoothUnion
        (<[ "k" := Lit "float" "0.5" ]> (children_dict [(0, 0); (1, 1); (2, 2)]))
        (Some "vec3(0, 0, 0)") (Some "vec4(0, 0, 0, 1)") "1" [0; 1; 2] "smin".

(** The template the sample runs of [process] read. *)
Definition sample_template : string :=
  "#version 330 core" +:+ nl +:+ "void main() {}".

(** ** Transform calls as updates of one object *)

(** The attribute a transform call assigns. *)
Inductive attr := ATranslation | ARotation | AScale.

(** The object a transform call is made on and the attribute it
    assigns; [None] for the other calls. *)
Definition transform_target (c : call) : option (ref * attr) :=
  match c with
  | Translated self _ => Some (self, ATranslation)
  | Rotated self _ _ => Some (self, ARotation)
  | RotatedQuaternion self _ => Some (self, ARotation)
  | Scaled self _ => Some (self, AScale)
  | _ => None
  end.

(** The scale text after the calls [scaled(k)] for the [ks] in order. *)
Definition scaled_by (s : string) (ks : list string) : string :=
  foldl (λ s k, "(" +:+ s +:+ " * (" +:+ k +:+ "))") s ks.

(** An operator class node with fewer than two children. *)
Definition short_operator (o : SDF) : Prop :=
  is_operator (cls o) = true ∧ length (objects o) < 2.

#[global] Instance short_operator_dec o : Decision (short_operator o).
Proof. unfold short_operator. apply _. Defined.

(** The line feed and the backslash [process] puts before it. *)
Definition LF : ascii := "010"%char.
Definition backslash : ascii := "\"%char.

(** What a transform call makes of the object it is called on; a call
    whose argument is refused leaves the object as it is. *)
Definition node_update (c : call) (o : SDF) : SDF :=
  match c with
  | Translated _ tr =>
      match to_glsl_vec tr 3 with
      | Ok v =>
          set_translation
            (Some match translation o with
                  | None => v
                  | Some t => "(" +:+ t +:+ " + " +:+ v +:+ ")"
                  end) o
      | _ => o
      end
  | Rotated _ u angle =>
      match to_glsl_vec u 3 with
      | Ok v =>
          set_rotation
            (Some ("vec4(" +:+ v +:+ " * cos((" +:+ angle +:+ ") / 2), sin(("
                   +:+ angle +:+ ") / 2))")) o
      | _ => o
      end
  | RotatedQuaternion _ q =>
      match to_glsl_vec q 4 with
      | Ok v => set_rotation (Some v) o
      | _ => o
      end
  | Scaled _ k => set_scale ("(" +:+ scale o +:+ " * (" +:+ k +:+ "))") o
  | _ => o
  end.

(** ** Constructor calls *)

(** The class a constructor call builds and the constructor it runs;
    [None] for the calls that are no constructor. *)
Definition constructor (c : call)
  : option (Cls.t * (store → store * result ref)) :=
  match c with
  | NewEmptiness => Some (Cls.Emptiness, Emptiness_init)
  | NewSphere => Some (Cls.Sphere, Sphere_init)
  | NewPlane => Some (Cls.Plane, Plane_init)
  | NewAABBox r => Some (Cls.AABBox, AABBox_init r)
  | NewCylinder radius height2 =>
      Some (Cls.Cylinder, Cylinder_init radius height2)
  | NewSDFOperator f args =>
      Some (Cls.SDFOperator, SDFOperator_init Cls.SDFOperator f args)
  | NewIntersection args => Some (Cls.Intersection, Intersection_init args)
  | NewUnion args => Some (Cls.Union, Union_init args)
  | NewSmoothUnion k args => Some (Cls.SmoothUnion, SmoothUnion_init k args)
  | NewDifference o1 o2 => Some (Cls.Difference, Difference_init o1 o2)
  | _ => None
  end.

(** The objects a constructor call is given as children. *)
Definition call_refs (c : call) : list ref :=
  match c with
  | NewSDFOperator _ args | NewIntersection args | NewUnion args
  | NewSmoothUnion _ args => args
  | NewDifference o1 o2 => [o1; o2]
  | _ => []
  end.

(** The text [rotated] hands to [rotated_quaternion] for the converted
    axis [v] and the angle. *)
Definition rotation_text (v angle : string) : string :=
  "vec4(" +:+ v +:+ " * cos((" +:+ angle +:+ ") / 2), sin(("
  +:+ angle +:+ ") / 2))".
(** * Properties *)

(** ** Strings *)

Lemma app_assoc_str (a b c : string) : (a +:+ b) +:+ c = a +:+ (b +:+ c).
Proof.
  induction a as [|x a IH]; [done|].
  change (String x ((a +:+ b) +:+ c) = String x (a +:+ (b +:+ c))).
  by rewrite IH.
Qed.

Lemma app_nil_r_str (a : string) : a +:+ "" = a.
Proof.
  induction a as [|x a IH]; [done|].
  change (String x (a +:+ "") = String x a). by rewrite IH.
Qed.

(** ** Vector conversion *)

Example to_glsl_vec_list :
  to_glsl_vec (PyIterable ["1"; "2"; "3"]) 3 = Ok "vec3(1, 2, 3)".
Proof. reflexivity. Qed.

Example to_glsl_vec_bad_dim :
  to_glsl_vec (PyStr "p") 5
  = Raise (ValueError "Bad GLSL vector dimension 5. GLSL supports only 2, 3 and 4.").
Proof. reflexivity. Qed.

Lemma to_glsl_vec_in_range vec n :
  (2 ≤ n ≤ 4)%Z →
  to_glsl_vec vec n =
    match vec with
    | PyStr s => Ok s
    | PyIterable items =>
        Ok (slice_to_neg2
              (foldl (λ answer i, answer +:+ i +:+ ", ")
                     ("vec" +:+ str_int n +:+ "(") items) +:+ ")")
    | PyOther repr =>
        Raise (ValueError ("Cannot convert '" +:+ repr
                           +:+ "' to GLSL's vec" +:+ str_int n))
    end.
Proof.
  intros Hn. unfold to_glsl_vec.
  rewrite bool_decide_eq_false_2 by lia. done.
Qed.

(** C8.  [to_glsl_vec] raises [ValueError] exactly when the dimension
    is outside 2..4 or the value is neither a string nor an iterable;
    every other call returns a complete text, and a string with a
    dimension in range comes back unchanged.  The outcome of a failing
    call is the exception alone. *)
Theorem to_glsl_vec_raises_iff (vec : pyvalue) (n : Z) :
  (raises_ValueError (to_glsl_vec vec n)
   ↔ (n < 2 ∨ n > 4)%Z ∨ ∃ repr, vec = PyOther repr)
  ∧ (raises (to_glsl_vec vec n) ↔ raises_ValueError (to_glsl_vec vec n))
  ∧ (raises (to_glsl_vec vec n) ∨ ∃ text, to_glsl_vec vec n = Ok text)
  ∧ (∀ s, vec = PyStr s → (2 ≤ n ≤ 4)%Z → to_glsl_vec vec n = Ok s).
Proof.
  destruct (decide (n < 2 ∨ n > 4)%Z) as [Hbad|Hgood].
  - unfold to_glsl_vec. rewrite bool_decide_eq_true_2 by done. simpl.
    repeat split; auto; try tauto. intros s _ ?. lia.
  - rewrite to_glsl_vec_in_range by lia.
    destruct vec as [s|items|repr]; simpl.
    + repeat split; try tauto; [|right; eauto|by intros ? [= ->]].
      intros [?|[? ?]]; [lia|done].
    + repeat split; try tauto; [|right; eauto|done].
      intros [?|[? ?]]; [lia|done].
    + repeat split; try tauto; [right; eauto|done].
Qed.

(** C10.  With a dimension in range an empty iterable is not refused:
    the text ["vec"], digit and parenthesis cut off, gets the closing
    parenthesis. *)
Theorem to_glsl_vec_empty_iterable (n : Z) :
  (2 ≤ n ≤ 4)%Z → to_glsl_vec (PyIterable []) n = Ok "vec)".
Proof.
  intros Hn.
  assert (n = 2 ∨ n = 3 ∨ n = 4)%Z as [->|[->| ->]] by lia; reflexivity.
Qed.

Lemma to_glsl_vec_empty_iterable_witness :
  (2 ≤ 3 ≤ 4)%Z ∧ to_glsl_vec (PyIterable []) 3 = Ok "vec)".
Proof. split; [lia | apply (to_glsl_vec_empty_iterable 3); lia]. Defined.

Lemma to_glsl_vec_raises_iff_witness :
  to_glsl_vec (PyStr "p") 3 = Ok "p"
  ∧ raises_ValueError (to_glsl_vec (PyOther "7") 3).
Proof.
  split.
  - apply (to_glsl_vec_raises_iff (PyStr "p") 3); [reflexivity | lia].
  - destruct (to_glsl_vec_raises_iff (PyOther "7") 3) as [H _].
    apply H. right. by exists "7".
Defined.

(** ** The store invariant *)

Lemma wf_store_lookup (st : store) :
  wf_store st ↔ ∀ i o, st !! i = Some o → wf_node i o.
Proof.
  unfold wf_store. rewrite Forall2_same_length_lookup. split.
  - intros [_ H] i o Hi. apply (H i i o); [|done].
    apply lookup_seq. split; [done|]. by eapply lookup_lt_Some.
  - intros H. split; [by rewrite length_seq|].
    intros i j o [-> _]%lookup_seq Hi. by apply H.
Qed.

Lemma wf_store_snoc (st : store) (o : SDF) :
  wf_store st → wf_node (length st) o → wf_store (st ++ [o]).
Proof.
  rewrite !wf_store_lookup. intros Hst Ho i o' Hi.
  apply lookup_app_Some in Hi as [Hi|[Hlen Hi]]; [by apply Hst|].
  destruct (i - length st) as [|k] eqn:Hk; [|done].
  simpl in Hi. injection Hi as <-.
  by replace i with (length st) by lia.
Qed.

Lemma wf_store_alter (st : store) (f : SDF → SDF) (self : ref) :
  (∀ o, same_frame (f o) o) → wf_store st → wf_store (alter f self st).
Proof.
  rewrite !wf_store_lookup. intros Hf Hst i o' Hi.
  destruct (decide (self = i)) as [->|Hne].
  - rewrite list_lookup_alter_eq in Hi.
    destruct (st !! i) as [o|] eqn:Ho; [|done].
    injection Hi as <-. destruct (Hf o) as (Hid & _ & Hp & Hobj & _).
    destruct (Hst i o Ho) as (? & ? & ?).
    unfold wf_node. by rewrite Hid, Hp, Hobj.
  - rewrite list_lookup_alter_ne in Hi by done. by apply Hst.
Qed.

Lemma alter_last (st : store) (o : SDF) (f : SDF → SDF) :
  alter f (length st) (st ++ [o]) = st ++ [f o].
Proof.
  replace (length st) with (length st + 0) at 1 by lia.
  by rewrite alter_app_r.
Qed.

Create HintDb store.

#[local] Hint Constructors grows : store.

Lemma same_frame_set_translation t o : same_frame (set_translation t o) o.
Proof. by repeat split. Qed.
Lemma same_frame_set_rotation q o : same_frame (set_rotation q o) o.
Proof. by repeat split. Qed.
Lemma same_frame_set_scale k o : same_frame (set_scale k o) o.
Proof. by repeat split. Qed.

#[local] Hint Resolve same_frame_set_translation same_frame_set_rotation
  same_frame_set_scale : store.

Lemma wf_node_fresh (st : store) (c : Cls.t) (d : gmap string param)
    (t q : option string) (k f : string) (l : list ref) :
  Forall (λ r, r < length st) l →
  map_Forall (λ _ p, param_below (length st) p) d →
  wf_node (length st) (mkSDF (length st) c d t q k l f).
Proof. by repeat split. Qed.

Lemma mapM_Ok_inv {A B} (f : A → result B) (l : list A) (ys : list B) :
  mapM f l = Ok ys → Forall2 (λ x y, f x = Ok y) l ys.
Proof.
  revert ys. induction l as [|x l IH]; intros ys; simpl.
  - intros [= <-]. constructor.
  - destruct (f x) as [y| |] eqn:Hx; simpl; try done.
    destruct (mapM f l) as [ys'| |]; simpl; try done.
    intros [= <-]. constructor; auto.
Qed.

Lemma mapM_Ok_intro {A B} (f : A → result B) (l : list A) (ys : list B) :
  Forall2 (λ x y, f x = Ok y) l ys → mapM f l = Ok ys.
Proof.
  induction 1 as [|x y l ys Hx _ IH]; simpl; [done|].
  by rewrite Hx, IH.
Qed.

Lemma id_of_Ok (st : store) (r : ref) (i : nat) :
  id_of st r = Ok i ↔ ∃ o, st !! r = Some o ∧ id o = i.
Proof.
  unfold id_of. destruct (st !! r) as [o|]; simpl; split.
  - intros [= <-]. eauto.
  - by intros (? & [= <-] & <-).
  - done.
  - by intros (? & ? & _).
Qed.

Lemma id_of_wf (st : store) (r : ref) :
  wf_store st → r < length st → id_of st r = Ok r.
Proof.
  intros Hst Hr. apply id_of_Ok.
  destruct (lookup_lt_is_Some_2 st r Hr) as [o Ho]. exists o. split; [done|].
  by apply (proj1 (wf_store_lookup st) Hst r o Ho).
Qed.

(** The children an operator is built from exist, and in a well-formed
    store their ids are their positions. *)
Lemma children_resolved (st : store) (args : list ref) (kvs : list (nat * ref)) :
  mapM (λ r, i ← id_of st r; Ok (i, r)) args = Ok kvs →
  Forall (λ r, r < length st) args
  ∧ kvs.*2 = args
  ∧ (wf_store st → kvs = map (λ r, (r, r)) args).
Proof.
  intros H%mapM_Ok_inv.
  induction H as [|r [i r'] args kvs Hr _ (IH1 & IH2 & IH3)]; [done|].
  destruct (id_of st r) as [j| |] eqn:Hj; simpl in Hr; try done.
  injection Hr as <- <-.
  apply id_of_Ok in Hj as (o & Ho & Hid).
  pose proof (lookup_lt_Some _ _ _ Ho) as Hlt.
  split; [by constructor|]. split; [by rewrite fmap_cons, IH2|].
  intros Hst. rewrite IH3 by done. simpl. do 2 f_equal.
  rewrite <- Hid. by apply (proj1 (wf_store_lookup st) Hst r o Ho).
Qed.

Lemma children_dict_Forall (P : string → param → Prop) (kvs : list (nat * ref)) :
  Forall (λ kv, P (child_key kv.1) (Child kv.2)) kvs →
  map_Forall P (children_dict kvs).
Proof.
  unfold children_dict. generalize (∅ : gmap string param) (map_Forall_empty P (M:=gmap string) (A:=param)).
  intros d Hd H. revert d Hd.
  induction H as [|kv kvs Hkv _ IH]; intros d Hd; simpl; [done|].
  apply IH. by apply map_Forall_insert_2.
Qed.

Lemma update_parameters_fresh (new : gmap string param) (c : Cls.t)
    (t q : option string) (k f : string) (l : list ref) (i : nat) :
  update_parameters new (mkSDF i c ∅ t q k l f) = mkSDF i c new t q k l f.
Proof.
  unfold update_parameters, set_parameters. simpl.
  by rewrite (right_id_L ∅ (∪)).
Qed.

Lemma SDF_init_grows (c : Cls.t) (st : store) : grows st (SDF_init c st).1.
Proof.
  simpl. apply grows_new; [done|]. intros _.
  apply wf_node_fresh; [constructor | apply map_Forall_empty].
Qed.

Lemma AABBox_init_grows r st : grows st (AABBox_init r st).1.
Proof.
  unfold AABBox_init. simpl.
  destruct (to_glsl_vec r 3) as [v| |]; simpl;
    try apply (SDF_init_grows Cls.AABBox).
  rewrite alter_last, update_parameters_fresh.
  apply grows_new; [done|]. intros _.
  apply wf_node_fresh; [constructor | by apply map_Forall_singleton].
Qed.

Lemma Cylinder_init_grows radius height2 st :
  grows st (Cylinder_init radius height2 st).1.
Proof.
  unfold Cylinder_init. simpl.
  rewrite alter_last, update_parameters_fresh.
  apply grows_new; [done|]. intros _.
  apply wf_node_fresh; [constructor|].
  apply map_Forall_insert_2; [done | by apply map_Forall_singleton].
Qed.

Lemma SDFOperator_init_store c f args st :
  (SDFOperator_init c f args st).1 = st
  ∨ ∃ kvs, mapM (λ r, i ← id_of st r; Ok (i, r)) args = Ok kvs
      ∧ SDFOperator_init c f args st
        = (st ++ [mkSDF (length st) c (children_dict kvs)
                        (Some "vec3(0, 0, 0)") (Some "vec4(0, 0, 0, 1)")
                        "1" args f],
           Ok (length st)).
Proof.
  unfold SDFOperator_init.
  destruct (mapM _ args) as [kvs| |]; simpl; auto.
  right. exists kvs. split; [done|].
  rewrite alter_last. unfold set_objects. simpl.
  by rewrite update_parameters_fresh.
Qed.

Lemma wf_node_operator st c f args kvs t q k :
  mapM (λ r, i ← id_of st r; Ok (i, r)) args = Ok kvs →
  wf_node (length st) (mkSDF (length st) c (children_dict kvs) t q k args f).
Proof.
  intros (Hargs & Hkvs & _)%children_resolved.
  apply wf_node_fresh; [done|].
  apply children_dict_Forall. rewrite <- Hkvs in Hargs.
  apply Forall_fmap in Hargs. by eapply Forall_impl.
Qed.

Lemma SDFOperator_init_grows c f args st :
  grows st (SDFOperator_init c f args st).1.
Proof.
  destruct (SDFOperator_init_store c f args st) as [->|(kvs & Hk & ->)];
    [constructor|].
  apply grows_new; [done|]. intros _. by apply wf_node_operator.
Qed.

Lemma SmoothUnion_init_store k args st :
  (SmoothUnion_init k args st).1 = st
  ∨ ∃ kvs, mapM (λ r, i ← id_of st r; Ok (i, r)) args = Ok kvs
      ∧ SmoothUnion_init k args st
        = (st ++ [mkSDF (length st) Cls.SmoothUnion
                        ({[ "k" := Lit "float" k ]} ∪ children_dict kvs)
                        (Some "vec3(0, 0, 0)") (Some "vec4(0, 0, 0, 1)")
                        "1" args "smin"],
           Ok (length st)).
Proof.
  unfold SmoothUnion_init.
  destruct (SDFOperator_init_store Cls.SmoothUnion "smin" args st)
    as [Hs|(kvs & Hk & ->)].
  - left. revert Hs. unfold SDFOperator_init.
    destruct (mapM _ args) as [kvs| |]; simpl; try done.
    intros Hs. apply (f_equal length) in Hs.
    rewrite length_alter, length_app in Hs. simpl in Hs. lia.
  - right. exists kvs. split; [done|]. simpl. by rewrite alter_last.
Qed.

Lemma SmoothUnion_init_grows k args st :
  grows st (SmoothUnion_init k args st).1.
Proof.
  destruct (SmoothUnion_init_store k args st) as [->|(kvs & Hk & ->)];
    [constructor|].
  apply grows_new; [done|]. intros _.
  destruct (wf_node_operator st Cls.SmoothUnion "smin" args kvs None None "" Hk)
    as (_ & Hobj & Hpar).
  apply wf_node_fresh; [done|].
  apply map_Forall_union_2; [by apply map_Forall_singleton | done].
Qed.

Lemma Difference_init_store o1 o2 st :
  (Difference_init o1 o2 st).1 = st
  ∨ (o1 < length st ∧ o2 < length st
     ∧ Difference_init o1 o2 st
       = (st ++ [mkSDF (length st) Cls.Difference
                       (<[ "o1" := Child o1 ]> {[ "o2" := Child o2 ]})
                       (Some "vec3(0, 0, 0)") (Some "vec4(0, 0, 0, 1)")
                       "1" [] ""],
          Ok (length st))).
Proof.
  unfold Difference_init.
  destruct (mapM (id_of st) [o1; o2]) as [ids| |] eqn:Hids; simpl; auto.
  right. apply mapM_Ok_inv in Hids.
  inversion Hids as [|? ? ? ? H1 Hrest]; subst.
  inversion Hrest as [|? ? ? ? H2 _]; subst.
  apply id_of_Ok in H1 as (? & ?%lookup_lt_Some & _).
  apply id_of_Ok in H2 as (? & ?%lookup_lt_Some & _).
  repeat split; [done..|].
  by rewrite alter_last, update_parameters_fresh.
Qed.

Lemma Difference_init_grows o1 o2 st : grows st (Difference_init o1 o2 st).1.
Proof.
  destruct (Difference_init_store o1 o2 st) as [->|(H1 & H2 & ->)];
    [constructor|].
  apply grows_new; [done|]. intros _.
  apply wf_node_fresh; [constructor|].
  apply map_Forall_insert_2; [done | by apply map_Forall_singleton].
Qed.

Lemma translated_grows self tr st : grows st (translated self tr st).1.
Proof.
  unfold translated. destruct (st !! self) as [o|]; simpl; [|constructor].
  destruct (translation o), (to_glsl_vec tr 3); simpl; auto with store.
Qed.

Lemma rotated_quaternion_grows self q st :
  grows st (rotated_quaternion self q st).1.
Proof.
  unfold rotated_quaternion. destruct (st !! self) as [o|]; simpl; [|constructor].
  destruct (to_glsl_vec q 4); simpl; auto with store.
Qed.

Lemma rotated_grows self u angle st : grows st (rotated self u angle st).1.
Proof.
  unfold rotated. destruct (to_glsl_vec u 3); simpl; auto with store.
  apply rotated_quaternion_grows.
Qed.

Lemma scaled_grows self k st : grows st (scaled self k st).1.
Proof.
  unfold scaled. destruct (st !! self) as [o|]; simpl; auto with store.
Qed.

Lemma process_store tpl sc st :
  (process tpl sc st).1.2 = (resolve_root sc st).1.2.
Proof. unfold process. by destruct (resolve_root sc st) as [[? ?] ?]. Qed.

Lemma process_grows tpl sc st : grows st (process tpl sc st).1.2.
Proof.
  rewrite process_store. unfold resolve_root.
  destruct (sdf sc); simpl; [constructor|].
  apply (SDF_init_grows Cls.Emptiness).
Qed.

Lemma exec_grows (c : call) (st : store) : grows st (exec c st).
Proof.
  destruct c; simpl.
  - apply (SDF_init_grows Cls.Emptiness).
  - apply (SDF_init_grows Cls.Sphere).
  - apply (SDF_init_grows Cls.Plane).
  - apply AABBox_init_grows.
  - apply Cylinder_init_grows.
  - apply SDFOperator_init_grows.
  - apply SDFOperator_init_grows.
  - apply SDFOperator_init_grows.
  - apply SmoothUnion_init_grows.
  - apply Difference_init_grows.
  - apply translated_grows.
  - apply rotated_grows.
  - apply rotated_quaternion_grows.
  - apply scaled_grows.
  - apply process_grows.
Qed.

Lemma grows_wf st st' : grows st st' → wf_store st → wf_store st'.
Proof.
  destruct 1 as [|f self Hf|o Hid Ho]; intros Hst; [done| |].
  - by apply wf_store_alter.
  - apply wf_store_snoc; auto.
Qed.

Lemma grows_length st st' : grows st st' → length st ≤ length st'.
Proof.
  destruct 1; [done| |].
  - by rewrite length_alter.
  - rewrite length_app. simpl. lia.
Qed.

Lemma grows_lookup st st' i o :
  grows st st' → st !! i = Some o →
  ∃ o', st' !! i = Some o' ∧ same_frame o' o.
Proof.
  destruct 1 as [|f self Hf|o1 Hid Ho]; intros Hi.
  - exists o. by repeat split.
  - destruct (decide (self = i)) as [->|Hne].
    + exists (f o). by rewrite list_lookup_alter_eq, Hi.
    + exists o. rewrite list_lookup_alter_ne by done. by repeat split.
  - exists o. rewrite lookup_app_l by (by eapply lookup_lt_Some).
    by repeat split.
Qed.

Lemma grows_created st st' :
  grows st st' →
  map id (drop (length st) st') = seq (length st) (length st' - length st).
Proof.
  destruct 1 as [|f self Hf|o Hid Ho].
  - by rewrite drop_all, Nat.sub_diag.
  - rewrite drop_ge by (by rewrite length_alter).
    by rewrite length_alter, Nat.sub_diag.
  - rewrite drop_app_length, length_app. simpl.
    replace (length st + 1 - length st) with 1 by lia. simpl. by rewrite Hid.
Qed.

Lemma run_from_snoc st script c :
  run_from st (script ++ [c]) = exec c (run_from st script).
Proof. unfold run_from. by rewrite foldl_app. Qed.

Lemma run_from_app st script more :
  run_from st (script ++ more) = run_from (run_from st script) more.
Proof. unfold run_from. by rewrite foldl_app. Qed.

Lemma run_from_wf st script : wf_store st → wf_store (run_from st script).
Proof.
  revert st. induction script as [|c script IH]; intros st Hst; [done|].
  simpl. apply IH. eapply grows_wf; [apply exec_grows | done].
Qed.

Lemma run_wf script : wf_store (run script).
Proof. apply run_from_wf. constructor. Qed.

Lemma run_from_lookup st script i o :
  st !! i = Some o →
  ∃ o', run_from st script !! i = Some o' ∧ same_frame o' o.
Proof.
  revert st o. induction script as [|c script IH]; intros st o Hi; simpl.
  - exists o. by repeat split.
  - destruct (grows_lookup st (exec c st) i o (exec_grows c st) Hi)
      as (o1 & Hi1 & Hf1).
    destruct (IH _ _ Hi1) as (o2 & Hi2 & Hf2).
    exists o2. split; [done|].
    destruct Hf1 as (?&?&?&?&?), Hf2 as (?&?&?&?&?).
    repeat split; congruence.
Qed.

Lemma run_from_length st script : length st ≤ length (run_from st script).
Proof.
  revert st. induction script as [|c script IH]; intros st; simpl; [done|].
  etrans; [|apply IH]. apply grows_length, exec_grows.
Qed.

Lemma created_from_seq st script :
  created_from st script
  = seq (length st) (length (run_from st script) - length st).
Proof.
  revert st. induction script as [|c script IH]; intros st; simpl.
  - by rewrite Nat.sub_diag.
  - rewrite IH, (grows_created st (exec c st)) by apply exec_grows.
    pose proof (grows_length _ _ (exec_grows c st)) as H1.
    pose proof (run_from_length (exec c st) script) as H2.
    replace (length (run_from (exec c st) script) - length st)
      with ((length (exec c st) - length st)
            + (length (run_from (exec c st) script) - length (exec c st)))
      by lia.
    rewrite seq_app. do 2 f_equal. lia.
Qed.

(** ** Transforms *)

Lemma rotated_quaternion_Ok self q st st1 r :
  rotated_quaternion self q st = (st1, Ok r) →
  ∃ o v, st !! self = Some o ∧ to_glsl_vec q 4 = Ok v
         ∧ st1 = alter (set_rotation (Some v)) self st ∧ r = self.
Proof.
  unfold rotated_quaternion.
  destruct (st !! self) as [o|]; simpl; [|done].
  destruct (to_glsl_vec q 4) as [v| |]; simpl; try done.
  intros [= <- <-]. by exists o, v.
Qed.

Lemma rotated_quaternion_twice self q1 q2 st st1 st2 r1 r2 :
  rotated_quaternion self q1 st = (st1, Ok r1) →
  rotated_quaternion self q2 st1 = (st2, Ok r2) →
  rotated_quaternion self q2 st = (st2, Ok r2)
  ∧ ∃ o v, st2 !! self = Some o ∧ to_glsl_vec q2 4 = Ok v
           ∧ rotation o = Some v.
Proof.
  intros (o & v1 & Ho & Hq1 & -> & ->)%rotated_quaternion_Ok
         (o1 & v2 & Ho1 & Hq2 & -> & ->)%rotated_quaternion_Ok.
  split.
  - unfold rotated_quaternion. rewrite Ho, Hq2. simpl. f_equal.
    rewrite list_alter_alter_eq. by apply list_alter_ext.
  - rewrite list_lookup_alter_eq, Ho in Ho1. injection Ho1 as <-.
    exists (set_rotation (Some v2) (set_rotation (Some v1) o)), v2.
    split; [|done].
    by rewrite !list_lookup_alter_eq, Ho.
Qed.

Lemma rotated_Ok self u angle st st1 r :
  rotated self u angle st = (st1, Ok r) →
  ∃ v, to_glsl_vec u 3 = Ok v
       ∧ rotated_quaternion self
           (PyStr ("vec4(" +:+ v +:+ " * cos((" +:+ angle +:+ ") / 2), sin(("
                   +:+ angle +:+ ") / 2))")) st = (st1, Ok r).
Proof.
  unfold rotated. destruct (to_glsl_vec u 3) as [v| |]; simpl; try done.
  intros H. by exists v.
Qed.

Lemma rotated_quaternion_returns self q st o v :
  st !! self = Some o → to_glsl_vec q 4 = Ok v →
  rotated_quaternion self q st
  = (alter (set_rotation (Some v)) self st, Ok self).
Proof. intros Ho Hq. unfold rotated_quaternion. by rewrite Ho, Hq. Qed.

Lemma rotated_returns self u angle st o v :
  st !! self = Some o → to_glsl_vec u 3 = Ok v →
  rotated self u angle st
  = rotated_quaternion self (PyStr (rotation_text v angle)) st
  ∧ rotated self u angle st
    = (alter (set_rotation (Some (rotation_text v angle))) self st, Ok self).
Proof.
  intros Ho Hu. unfold rotated. rewrite Hu. simpl.
  split; [done|].
  apply (rotated_quaternion_returns _ _ _ o).
  - done.
  - by rewrite to_glsl_vec_in_range by lia.
Qed.

Lemma alter_set_rotation_twice (q1 q2 : option string) (self : ref) (st : store) :
  alter (set_rotation q2) self (alter (set_rotation q1) self st)
  = alter (set_rotation q2) self st.
Proof. rewrite list_alter_alter_eq. by apply list_alter_ext. Qed.

(** C7.  A second rotation replaces the first.  On an existing node
    [rotated_quaternion] with an argument that converts returns the
    node and assigns the conversion; [rotated] passes its text on to
    [rotated_quaternion] and so does the same with that text.  After
    two calls, of either kind, the store is the one the second call
    alone would have left, and the rotation of the node is the one of
    the second argument, with no trace of the first. *)
Theorem second_rotation_overwrites (st : store) (self : ref) :
  (∀ q1 q2 st1 st2 r1 r2,
     rotated_quaternion self q1 st = (st1, Ok r1) →
     rotated_quaternion self q2 st1 = (st2, Ok r2) →
     rotated_quaternion self q2 st = (st2, Ok r2)
     ∧ ∃ o v, st2 !! self = Some o ∧ to_glsl_vec q2 4 = Ok v
              ∧ rotation o = Some v)
  ∧ (∀ u1 angle1 u2 angle2 st1 st2 r1 r2,
       rotated self u1 angle1 st = (st1, Ok r1) →
       rotated self u2 angle2 st1 = (st2, Ok r2) →
       rotated self u2 angle2 st = (st2, Ok r2)
       ∧ ∃ o v, st2 !! self = Some o ∧ to_glsl_vec u2 3 = Ok v
                ∧ rotation o
                  = Some ("vec4(" +:+ v +:+ " * cos((" +:+ angle2
                          +:+ ") / 2), sin((" +:+ angle2 +:+ ") / 2))"))
  ∧ (∀ o, st !! self = Some o →
       (∀ q v, to_glsl_vec q 4 = Ok v →
          rotated_quaternion self q st
          = (alter (set_rotation (Some v)) self st, Ok self))
       ∧ (∀ u angle v, to_glsl_vec u 3 = Ok v →
            rotated self u angle st
            = rotated_quaternion self (PyStr (rotation_text v angle)) st
            ∧ rotated self u angle st
              = (alter (set_rotation (Some (rotation_text v angle))) self st,
                 Ok self))
       ∧ (∀ q1 q2 v1 v2, to_glsl_vec q1 4 = Ok v1 → to_glsl_vec q2 4 = Ok v2 →
            rotated_quaternion self q2 (rotated_quaternion self q1 st).1
            = (alter (set_rotation (Some v2)) self st, Ok self)
            ∧ alter (set_rotation (Some v2)) self st !! self
              = Some (set_rotation (Some v2) o))
       ∧ (∀ u1 angle1 u2 angle2 v1 v2,
            to_glsl_vec u1 3 = Ok v1 → to_glsl_vec u2 3 = Ok v2 →
            rotated self u2 angle2 (rotated self u1 angle1 st).1
            = (alter (set_rotation (Some (rotation_text v2 angle2))) self st,
               Ok self)
            ∧ alter (set_rotation (Some (rotation_text v2 angle2))) self st
              !! self
              = Some (set_rotation (Some (rotation_text v2 angle2)) o))).
Proof.
  split; [|split].
  - intros q1 q2 st1 st2 r1 r2. apply rotated_quaternion_twice.
  - intros u1 angle1 u2 angle2 st1 st2 r1 r2
           (v1 & Hu1 & H1)%rotated_Ok (v2 & Hu2 & H2)%rotated_Ok.
    destruct (rotated_quaternion_twice _ _ _ _ _ _ _ _ H1 H2)
      as (Hst & o & v & Ho & Hv & Hr).
    split.
    + unfold rotated. by rewrite Hu2.
    + exists o, v2. split; [done|]. split; [done|].
      rewrite Hr. f_equal. symmetry.
      rewrite to_glsl_vec_in_range in Hv by lia. by injection Hv.
  - intros o Ho. split; [|split; [|split]].
    + intros q v Hq. by apply (rotated_quaternion_returns _ _ _ o).
    + intros u angle v Hu. by apply (rotated_returns _ _ _ _ o).
    + intros q1 q2 v1 v2 Hq1 Hq2.
      rewrite (rotated_quaternion_returns self q1 st o v1) by done. simpl.
      rewrite (rotated_quaternion_returns self q2 _
                 (set_rotation (Some v1) o) v2);
        [|by rewrite list_lookup_alter_eq, Ho|done].
      rewrite alter_set_rotation_twice.
      split; [done|]. by rewrite list_lookup_alter_eq, Ho.
    + intros u1 angle1 u2 angle2 v1 v2 Hu1 Hu2.
      rewrite (proj2 (rotated_returns self u1 angle1 st o v1 Ho Hu1)). simpl.
      rewrite (proj2 (rotated_returns self u2 angle2 _
                        (set_rotation (Some (rotation_text v1 angle1)) o) v2
                        ltac:(by rewrite list_lookup_alter_eq, Ho) Hu2)).
      rewrite alter_set_rotation_twice.
      split; [done|]. by rewrite list_lookup_alter_eq, Ho.
Qed.

Lemma second_rotation_overwrites_witness :
  ∃ o,
    (rotated 0 (PyIterable ["0"; "1"; "0"]) "a"
       (rotated 0 (PyStr "x") "b" (run [NewSphere])).1).2 = Ok 0
    ∧ (rotated 0 (PyIterable ["0"; "1"; "0"]) "a"
         (rotated 0 (PyStr "x") "b" (run [NewSphere])).1).1 !! 0 = Some o
    ∧ rotation o
      = Some "vec4(vec3(0, 1, 0) * cos((a) / 2), sin((a) / 2))".
Proof.
  destruct (second_rotation_overwrites (run [NewSphere]) 0) as (_ & _ & H).
  destruct (H (mkSDF 0 Cls.Sphere ∅ (Some "vec3(0, 0, 0)")
                     (Some "vec4(0, 0, 0, 1)") "1" [] "") eq_refl)
    as (_ & _ & _ & Htwice).
  destruct (Htwice (PyStr "x") "b" (PyIterable ["0"; "1"; "0"]) "a"
              "x" "vec3(0, 1, 0)" eq_refl eq_refl) as [Hcall Hnode].
  eexists. rewrite Hcall. simpl.
  split; [reflexivity|]. split; [exact Hnode | reflexivity].
Defined.

Section Translation.

(** Vectors with an addition, and a reading of operand texts in which
    the text of the zero vector is neutral on the left. *)
Context {V : Type} (add : V → V → V) (val : string → V).
Hypothesis zero_left : ∀ x, add (val "vec3(0, 0, 0)") x = x.

(** C6.  [translated] accumulates by addition: one call turns the
    translation [old] into ["(old + delta)"], or into the delta alone
    when it is unset; two calls with [A] and then [B] leave the text of
    [(old + A) + B], or of [A + B] when it was unset, and on a node
    whose translation is unset or still the zero vector of the
    constructor the value of that text is [A + B]. *)
Theorem translation_accumulates (st : store) (self : ref) (o : SDF)
    (A B : pyvalue) (a b : string) :
  st !! self = Some o →
  to_glsl_vec A 3 = Ok a →
  to_glsl_vec B 3 = Ok b →
  ∃ st1 st2 e,
    translated self A st = (st1, Ok self)
    ∧ translated self B st1 = (st2, Ok self)
    ∧ st1 !! self
      = Some (set_translation
                (Some match translation o with
                      | None => a
                      | Some old => "(" +:+ old +:+ " + " +:+ a +:+ ")"
                      end) o)
    ∧ st2 !! self = Some (set_translation (Some (vsum_text e)) o)
    ∧ e = match translation o with
          | None => Plus (Operand a) (Operand b)
          | Some old => Plus (Plus (Operand old) (Operand a)) (Operand b)
          end
    ∧ (translation o = None ∨ translation o = Some "vec3(0, 0, 0)" →
       vsum_value add val e = add (val a) (val b)).
Proof.
  intros Ho Ha Hb.
  set (t1 := match translation o with
             | None => a
             | Some old => "(" +:+ old +:+ " + " +:+ a +:+ ")"
             end).
  assert (translated self A st
          = (alter (set_translation (Some t1)) self st, Ok self)) as H1.
  { unfold translated. rewrite Ho. simpl. rewrite Ha. simpl.
    unfold t1. by destruct (translation o). }
  assert (alter (set_translation (Some t1)) self st !! self
          = Some (set_translation (Some t1) o)) as Ho1.
  { by rewrite list_lookup_alter_eq, Ho. }
  eexists _, _, _. split; [exact H1|].
  split; [|split; [exact Ho1|]].
  { unfold translated. rewrite Ho1. simpl. rewrite Hb. simpl. reflexivity. }
  split; [|split; [reflexivity|]].
  - rewrite list_lookup_alter_eq, Ho1. simpl. f_equal.
    unfold set_translation, t1. simpl. by destruct (translation o).
  - intros [->| ->]; simpl; [done|]. by rewrite zero_left.
Qed.

End Translation.

Lemma translation_accumulates_witness :
  ∃ st2 o2,
    translated 0 (PyIterable ["0"; "1"; "0"])
      (translated 0 (PyStr "a") (run [NewSphere])).1 = (st2, Ok 0)
    ∧ st2 !! 0 = Some o2
    ∧ translation o2 = Some "((vec3(0, 0, 0) + a) + vec3(0, 1, 0))".
Proof.
  destruct (translation_accumulates Z.add
              (λ _, 0%Z) Z.add_0_l (run [NewSphere]) 0
              (mkSDF 0 Cls.Sphere ∅ (Some "vec3(0, 0, 0)")
                     (Some "vec4(0, 0, 0, 1)") "1" [] "")
              (PyStr "a") (PyIterable ["0"; "1"; "0"]) "a" "vec3(0, 1, 0)"
              eq_refl eq_refl eq_refl)
    as (st1 & st2 & e & H1 & H2 & Ho1 & Ho2 & He & _).
  injection H1 as <-.
  exists st2, (set_translation (Some (vsum_text e))
                 (mkSDF 0 Cls.Sphere ∅ (Some "vec3(0, 0, 0)")
                        (Some "vec4(0, 0, 0, 1)") "1" [] "")).
  split; [exact H2|]. split; [exact Ho2|].
  rewrite He. reflexivity.
Defined.

(** ** Difference *)

Lemma Difference_init_Ok (o1 o2 : ref) (st : store) :
  o1 < length st → o2 < length st →
  Difference_init o1 o2 st
  = (st ++ [mkSDF (length st) Cls.Difference
                  (<[ "o1" := Child o1 ]> {[ "o2" := Child o2 ]})
                  (Some "vec3(0, 0, 0)") (Some "vec4(0, 0, 0, 1)") "1" [] ""],
     Ok (length st)).
Proof.
  intros [x1 H1]%lookup_lt_is_Some_2 [x2 H2]%lookup_lt_is_Some_2.
  unfold Difference_init, id_of. simpl. rewrite H1, H2. simpl.
  by rewrite alter_last, update_parameters_fresh.
Qed.

(** C2, as the code has it.  A [Difference] stores its children under
    the two fixed names ["o1"] and ["o2"], first and second argument,
    whatever their ids, and its distance body is the fixed text naming
    those two. *)
Theorem Difference_sdist_fixed_keys (st : store) (o1 o2 : ref) :
  o1 < length st → o2 < length st →
  ∃ self,
    Difference_init o1 o2 st = (st ++ [self], Ok (length st))
    ∧ cls self = Cls.Difference
    ∧ parameters self = <[ "o1" := Child o1 ]> {[ "o2" := Child o2 ]}
    ∧ sdist (st ++ [self]) self
      = Ok "return max(sdist(p, o.o1), -sdist(p, o.o2));".
Proof.
  intros H1 H2. eexists. split; [by apply Difference_init_Ok|]. done.
Qed.

Lemma Difference_sdist_fixed_keys_witness :
  ∃ self,
    Difference_init 0 1 (run [NewSphere; NewSphere])
    = (run [NewSphere; NewSphere] ++ [self], Ok 2)
    ∧ sdist (run [NewSphere; NewSphere] ++ [self]) self
      = Ok "return max(sdist(p, o.o1), -sdist(p, o.o2));".
Proof.
  destruct (Difference_sdist_fixed_keys (run [NewSphere; NewSphere]) 0 1)
    as (self & H & _ & _ & Hs); [simpl; lia..|].
  exists self. split; [exact H | exact Hs].
Defined.

(** C2 as stated fails on the [Difference] of the spheres 0 and 1: no
    key of the node is derived from the id 0 of its first child, the
    key ["o1"] holds the child with id 0 and not the one with id 1,
    and the body is not the text over the keys of the ids, with or
    without a blank after the comma. *)
Lemma Difference_keys_not_from_ids :
  ∃ self,
    difference_of_two !! 2 = Some self
    ∧ cls self = Cls.Difference
    ∧ parameters self !! child_key 0 = None
    ∧ parameters self !! child_key 1 = Some (Child 0)
    ∧ sdist difference_of_two self
      = Ok "return max(sdist(p, o.o1), -sdist(p, o.o2));"
    ∧ sdist difference_of_two self
      ≠ Ok ("return max(sdist(p,o." +:+ child_key 0 +:+ "), -sdist(p,o."
            +:+ child_key 1 +:+ "));")
    ∧ sdist difference_of_two self
      ≠ Ok ("return max(" +:+ render (Leaf (child_key 0)) +:+ ", -"
            +:+ render (Leaf (child_key 1)) +:+ ");").
Proof.
  eexists. split; [reflexivity|].
  repeat split; try reflexivity; by vm_compute.
Qed.

(** ** The operator fold *)

Lemma str_mul_comm (s : string) (n : nat) :
  s +:+ str_mul s n = str_mul s n +:+ s.
Proof.
  induction n as [|n IH]; simpl; [by rewrite app_nil_r_str|].
  by rewrite app_assoc_str, <- IH.
Qed.

Lemma render_leaf (i : nat) (rest : string) :
  render (Leaf (child_key i)) +:+ rest
  = "sdist(p, o.o" +:+ str_nat i +:+ ")" +:+ rest.
Proof.
  unfold child_key. cbn [render]. by rewrite !app_assoc_str.
Qed.

Lemma render_call f extra l r (rest : string) :
  render (Call f l r extra) +:+ rest
  = f +:+ "(" +:+ render l +:+ ", " +:+ render r
    +:+ (extra_text extra +:+ ")") +:+ rest.
Proof. cbn [render]. by rewrite !app_assoc_str. Qed.

(** The loop of [sdist] followed by its last two children and the
    closing parentheses writes the fold that nests to the right. *)
Lemma sdist_loop_nests_right (f : string) (extra : option string)
    (pre : list nat) (a b : nat) (acc rest : string) :
  foldl (λ answer o, answer +:+ "sdist(p, o.o" +:+ str_nat o +:+ "), "
                     +:+ f +:+ "(")
        (acc +:+ f +:+ "(") pre
  +:+ "sdist(p, o.o" +:+ str_nat a +:+ "), sdist(p, o.o" +:+ str_nat b
  +:+ ")" +:+ str_mul (extra_text extra +:+ ")") (S (length pre)) +:+ rest
  = acc +:+ render (fold_keys (nest_right f extra)
                      (map child_key (pre ++ [a; b]))) +:+ rest.
Proof.
  revert acc rest. induction pre as [|x pre IH]; intros acc rest.
  - cbn [foldl app map fold_keys nest_right length str_mul].
    rewrite render_call, !render_leaf, app_nil_r_str.
    by rewrite !app_assoc_str.
  - cbn [foldl length].
    replace (str_mul (extra_text extra +:+ ")") (S (S (length pre))))
      with (str_mul (extra_text extra +:+ ")") (S (length pre))
            +:+ (extra_text extra +:+ ")"))
      by (by rewrite <- str_mul_comm).
    replace ((acc +:+ f +:+ "(") +:+ "sdist(p, o.o" +:+ str_nat x +:+ "), "
             +:+ f +:+ "(")
      with ((acc +:+ f +:+ "(" +:+ "sdist(p, o.o" +:+ str_nat x +:+ "), ")
            +:+ f +:+ "(")
      by (by rewrite !app_assoc_str).
    rewrite (app_assoc_str (str_mul _ _)).
    rewrite IH.
    replace (map child_key ((x :: pre) ++ [a; b]))
      with (child_key x :: map child_key (pre ++ [a; b])) by done.
    destruct (map child_key (pre ++ [a; b])) as [|d1 ds] eqn:Hds.
    { by destruct pre. }
    cbn [fold_keys nest_right].
    rewrite render_call, render_leaf.
    by rewrite !app_assoc_str.
Qed.

Lemma split_last_two {A} (l : list A) :
  2 ≤ length l → ∃ pre a b, l = pre ++ [a; b].
Proof.
  intros Hl.
  destruct (decide (l = [])) as [->|Hne]; [simpl in Hl; lia|].
  destruct (exists_last Hne) as (l1 & b & ->).
  destruct (decide (l1 = [])) as [->|Hne1]; [simpl in Hl; lia|].
  destruct (exists_last Hne1) as (pre & a & ->).
  exists pre, a, b. by rewrite <- app_assoc.
Qed.

Lemma index_neg_last_two {A} (pre : list A) (a b : A) :
  index_neg 2 (pre ++ [a; b]) = Ok a
  ∧ index_neg 1 (pre ++ [a; b]) = Ok b
  ∧ list_slice_to_neg2 (pre ++ [a; b]) = pre
  ∧ length (pre ++ [a; b]) - 1 = S (length pre).
Proof.
  unfold index_neg, list_slice_to_neg2. rewrite length_app. simpl.
  rewrite !decide_True by lia.
  replace (length pre + 2 - 2) with (length pre) by lia.
  replace (length pre + 2 - 1) with (length pre + 1) by lia.
  rewrite take_app_length.
  rewrite !lookup_app_r by lia.
  replace (length pre - length pre) with 0 by lia.
  replace (length pre + 1 - length pre) with 1 by lia.
  repeat split; try done. lia.
Qed.

Lemma mapM_id_of_wf (st : store) (l : list ref) :
  wf_store st → Forall (λ r, r < length st) l → mapM (id_of st) l = Ok l.
Proof.
  intros Hst Hl. apply mapM_Ok_intro.
  induction Hl as [|r l Hr _ IH]; constructor; [|done].
  by apply id_of_wf.
Qed.

(** The distance body of a node of an operator class whose children
    are the objects [args] of the store, at least two. *)
Lemma operator_body (st : store) (self : SDF) (extra : option string) :
  wf_store st →
  Forall (λ r, r < length st) (objects self) →
  2 ≤ length (objects self) →
  (cls self = Cls.SmoothUnion ∧ extra = Some "o.k"
   ∨ cls self ∈ [Cls.SDFOperator; Cls.Intersection; Cls.Union] ∧ extra = None) →
  sdist st self
  = Ok ("return " +:+ render (fold_keys (nest_right (func self) extra)
                               (map child_key (objects self))) +:+ ";").
Proof.
  intros Hst Hargs (pre & a & b & Hobj)%split_last_two Hcls.
  destruct (index_neg_last_two pre a b) as (H2 & H1 & Hpre & Hlen).
  assert (∀ close, close = extra_text extra +:+ ")" →
    (ids ← mapM (id_of st) (objects self);
     let answer := "return " +:+ func self +:+ "(" in
     let answer :=
       foldl (λ answer o, answer +:+ "sdist(p, o.o" +:+ str_nat o +:+ "), "
                          +:+ func self +:+ "(")
             answer (list_slice_to_neg2 ids) in
     a ← index_neg 2 ids;
     b ← index_neg 1 ids;
     Ok (answer +:+ "sdist(p, o.o" +:+ str_nat a +:+ "), sdist(p, o.o"
         +:+ str_nat b +:+ ")" +:+ str_mul close (length ids - 1) +:+ ";"))
    = Ok ("return " +:+ render (fold_keys (nest_right (func self) extra)
                                  (map child_key (objects self))) +:+ ";"))
    as Hbody.
  { intros close ->. rewrite mapM_id_of_wf by done. rewrite Hobj.
    cbn [mbind result_bind Py.bind]. rewrite H2, H1, Hpre, Hlen.
    cbn [mbind result_bind Py.bind]. f_equal.
    apply (sdist_loop_nests_right (func self) extra pre a b "return " ";"). }
  unfold sdist.
  destruct Hcls as [[-> ->]|[Hc ->]].
  - apply (Hbody ", o.k)"). reflexivity.
  - assert (SDFOperator_sdist st self
            = Ok ("return " +:+ render (fold_keys (nest_right (func self) None)
                                          (map child_key (objects self)))
                  +:+ ";")) as Hop by (apply (Hbody ")"); reflexivity).
    set_unfold in Hc. destruct Hc as [->|[->|[->|[]]]]; exact Hop.
Qed.

Lemma str_nat_inj (n m : nat) : str_nat n = str_nat m → n = m.
Proof.
  unfold str_nat. intros H.
  assert (∀ k, Nat.to_uint k ≠ Decimal.Nil) as Hnil.
  { intros k Hk. pose proof (Unsigned.of_to k) as Hof.
    rewrite Hk in Hof. simpl in Hof. subst k. discriminate Hk. }
  apply (f_equal NilZero.uint_of_string) in H.
  rewrite !NilZero.usu in H by apply Hnil.
  injection H as H. by apply Unsigned.to_uint_inj.
Qed.

Lemma child_key_inj (n m : nat) : child_key n = child_key m → n = m.
Proof. unfold child_key. intros [= H]. by apply str_nat_inj. Qed.

Lemma children_dict_own_keys (args : list ref) (r : ref) :
  r ∈ args →
  children_dict (map (λ r, (r, r)) args) !! child_key r = Some (Child r).
Proof.
  unfold children_dict. generalize (∅ : gmap string param).
  induction args as [|x args IH]; intros d Hr; [by apply elem_of_nil in Hr|].
  simpl. fold (child_key x).
  destruct (decide (r ∈ args)) as [Hin|Hnin]; [by apply IH|].
  apply elem_of_cons in Hr as [->|?]; [|done].
  clear IH. revert d. induction args as [|y args IH]; intros d; simpl.
  - by rewrite lookup_insert_eq.
  - fold (child_key y). apply not_elem_of_cons in Hnin as [Hne Hnin].
    rewrite insert_insert_ne by (intros ?%child_key_inj; done).
    by apply IH.
Qed.

Lemma children_dict_only_keys (kvs : list (nat * ref)) (k : string) (p : param) :
  children_dict kvs !! k = Some p →
  ∃ kv, kv ∈ kvs ∧ k = child_key kv.1 ∧ p = Child kv.2.
Proof.
  revert k p.
  apply (children_dict_Forall
           (λ k p, ∃ kv, kv ∈ kvs ∧ k = child_key kv.1 ∧ p = Child kv.2)).
  apply Forall_forall. intros kv Hkv. by exists kv.
Qed.

Lemma SDFOperator_init_Ok (c : Cls.t) (f : string) (args : list ref) (st : store) :
  wf_store st → Forall (λ r, r < length st) args →
  SDFOperator_init c f args st
  = (st ++ [mkSDF (length st) c (children_dict (map (λ r, (r, r)) args))
                  (Some "vec3(0, 0, 0)") (Some "vec4(0, 0, 0, 1)") "1" args f],
     Ok (length st))
  ∧ wf_store (st ++ [mkSDF (length st) c (children_dict (map (λ r, (r, r)) args))
                  (Some "vec3(0, 0, 0)") (Some "vec4(0, 0, 0, 1)") "1" args f]).
Proof.
  intros Hst Hargs.
  assert (mapM (λ r, i ← id_of st r; Ok (i, r)) args
          = Ok (map (λ r, (r, r)) args)) as Hk.
  { apply mapM_Ok_intro. clear -Hst Hargs.
    induction Hargs as [|r l Hr _ IH]; constructor; [|done].
    by rewrite id_of_wf. }
  split.
  - destruct (SDFOperator_init_store c f args st) as [Hs|(kvs & Hk' & ->)].
    + exfalso. revert Hs. unfold SDFOperator_init. rewrite Hk. simpl.
      intros Hs. apply (f_equal length) in Hs.
      rewrite length_alter, length_app in Hs. simpl in Hs. lia.
    + rewrite Hk in Hk'. by injection Hk' as <-.
  - apply wf_store_snoc; [done|]. by apply wf_node_operator.
Qed.

Lemma nest_right_calls f extra d0 ds :
  every_call f extra (nest_right f extra d0 ds)
  ∧ calls (nest_right f extra d0 ds) = length ds.
Proof.
  revert d0. induction ds as [|d1 ds IH]; intros d0; simpl; [done|].
  destruct (IH d1) as [H1 H2]. rewrite H2. by repeat split.
Qed.

Lemma operator_node_body (c : Cls.t) (f : string) (extra : option string)
    (d : gmap string param) (args : list ref) (st : store) :
  wf_store (st ++ [mkSDF (length st) c d (Some "vec3(0, 0, 0)")
                         (Some "vec4(0, 0, 0, 1)") "1" args f]) →
  Forall (λ r, r < length st) args → 2 ≤ length args →
  (c = Cls.SmoothUnion ∧ extra = Some "o.k"
   ∨ c ∈ [Cls.SDFOperator; Cls.Intersection; Cls.Union] ∧ extra = None) →
  sdist (st ++ [mkSDF (length st) c d (Some "vec3(0, 0, 0)")
                      (Some "vec4(0, 0, 0, 1)") "1" args f])
        (mkSDF (length st) c d (Some "vec3(0, 0, 0)")
               (Some "vec4(0, 0, 0, 1)") "1" args f)
  = Ok ("return " +:+ render (fold_keys (nest_right f extra)
                               (map child_key args)) +:+ ";").
Proof.
  intros Hwf Hargs Hlen Hc.
  apply (operator_body _ (mkSDF _ _ _ _ _ _ _ _) extra); try done.
  simpl. eapply Forall_impl; [exact Hargs|].
  intros r Hr. rewrite length_app. simpl in *. lia.
Qed.

(** The body of a node built by [SDFOperator.__init__] for one of the
    classes that inherit [SDFOperator.sdist]. *)
Lemma SDFOperator_init_nests_right (c : Cls.t) (f : string) (st : store)
    (args : list ref) :
  c ∈ [Cls.SDFOperator; Cls.Intersection; Cls.Union] →
  wf_store st → Forall (λ r, r < length st) args → 2 ≤ length args →
  ∃ self,
    SDFOperator_init c f args st = (st ++ [self], Ok (length st))
    ∧ objects self = args
    ∧ (∀ r, r ∈ args → parameters self !! child_key r = Some (Child r))
    ∧ sdist (st ++ [self]) self
      = Ok ("return " +:+ render (fold_keys (nest_right f None)
                                   (map child_key args)) +:+ ";")
    ∧ (∀ A B C, args = [A; B; C] →
       sdist (st ++ [self]) self
       = Ok ("return " +:+ f +:+ "(sdist(p, o.o" +:+ str_nat A +:+ "), "
             +:+ f +:+ "(sdist(p, o.o" +:+ str_nat B +:+ "), sdist(p, o.o"
             +:+ str_nat C +:+ ")));")).
Proof.
  intros Hc Hst Hargs Hlen.
  destruct (SDFOperator_init_Ok c f args st Hst Hargs) as [Hinit Hwf].
  eexists. split; [exact Hinit|].
  split; [reflexivity|].
  split; [intros r Hr; by apply children_dict_own_keys|].
  pose proof (operator_node_body c f None _ args st Hwf Hargs Hlen
                (or_intror (conj Hc eq_refl))) as Hbody.
  split; [exact Hbody|].
  intros A B C ->. rewrite Hbody. f_equal.
  cbn [map fold_keys nest_right].
  rewrite !render_call, !render_leaf. cbn [extra_text].
  by rewrite !app_assoc_str.
Qed.

(** C1, as the code has it.  The distance body of a [Union] or an
    [Intersection] of at least two children is the fold of [min] or
    [max] over the children in the order they were given, nested to
    the right, [f(d0, f(d1, f(d2, d3)))]; the children are named by
    the keys ["o"] followed by their ids, under which the node stores
    them; for three children [A], [B], [C] the body of the [Union]
    is [return min(sdist(p, o.oA), min(sdist(p, o.oB), sdist(p, o.oC)));],
    and the same with [max] for the [Intersection]. *)
Theorem operator_sdist_nests_right (st : store) (args : list ref) :
  wf_store st → Forall (λ r, r < length st) args → 2 ≤ length args →
  (∃ self,
     Union_init args st = (st ++ [self], Ok (length st))
     ∧ objects self = args
     ∧ (∀ r, r ∈ args → parameters self !! child_key r = Some (Child r))
     ∧ sdist (st ++ [self]) self
       = Ok ("return " +:+ render (fold_keys (nest_right "min" None)
                                    (map child_key args)) +:+ ";")
     ∧ (∀ A B C, args = [A; B; C] →
        sdist (st ++ [self]) self
        = Ok ("return min(sdist(p, o.o" +:+ str_nat A
              +:+ "), min(sdist(p, o.o" +:+ str_nat B
              +:+ "), sdist(p, o.o" +:+ str_nat C +:+ ")));")))
  ∧ (∃ self,
       Intersection_init args st = (st ++ [self], Ok (length st))
       ∧ objects self = args
       ∧ (∀ r, r ∈ args → parameters self !! child_key r = Some (Child r))
       ∧ sdist (st ++ [self]) self
         = Ok ("return " +:+ render (fold_keys (nest_right "max" None)
                                      (map child_key args)) +:+ ";")
       ∧ (∀ A B C, args = [A; B; C] →
          sdist (st ++ [self]) self
          = Ok ("return max(sdist(p, o.o" +:+ str_nat A
                +:+ "), max(sdist(p, o.o" +:+ str_nat B
                +:+ "), sdist(p, o.o" +:+ str_nat C +:+ ")));"))).
Proof.
  intros Hst Hargs Hlen. split.
  - apply (SDFOperator_init_nests_right Cls.Union "min"); [set_solver|done..].
  - apply (SDFOperator_init_nests_right Cls.Intersection "max");
      [set_solver|done..].
Qed.

Lemma operator_sdist_nests_right_witness :
  ∃ self,
    Union_init [0; 1; 2] (run [NewSphere; NewSphere; NewSphere])
    = (run [NewSphere; NewSphere; NewSphere] ++ [self], Ok 3)
    ∧ sdist (run [NewSphere; NewSphere; NewSphere] ++ [self]) self
      = Ok "return min(sdist(p, o.o0), min(sdist(p, o.o1), sdist(p, o.o2)));".
Proof.
  destruct (operator_sdist_nests_right
              (run [NewSphere; NewSphere; NewSphere]) [0; 1; 2])
    as [(self & Hinit & _ & _ & _ & Htext) _].
  - apply (bool_decide_unpack _). by vm_compute.
  - repeat constructor.
  - simpl. lia.
  - exists self. split; [exact Hinit|].
    exact (Htext 0 1 2 eq_refl).
Defined.

(** C1 as stated fails on the [Union] and the [Intersection] of the
    spheres 0, 1 and 2: the body nests to the right, and is not the
    text of the fold that nests to the left, with or without a blank
    after the comma. *)
Lemma Union_of_three_not_left_nested :
  (∃ self,
     union_of_three !! 3 = Some self
     ∧ cls self = Cls.Union ∧ objects self = [0; 1; 2]
     ∧ sdist union_of_three self
       = Ok "return min(sdist(p, o.o0), min(sdist(p, o.o1), sdist(p, o.o2)));"
     ∧ sdist union_of_three self
       ≠ Ok ("return min(min(sdist(p,o." +:+ child_key 0 +:+ "), sdist(p,o."
             +:+ child_key 1 +:+ ")), sdist(p,o." +:+ child_key 2 +:+ "));")
     ∧ sdist union_of_three self
       ≠ Ok ("return " +:+ render (fold_keys (nest_left "min" None)
                                     (map child_key [0; 1; 2])) +:+ ";"))
  ∧ (∃ self,
       intersection_of_three !! 3 = Some self
       ∧ cls self = Cls.Intersection ∧ objects self = [0; 1; 2]
       ∧ sdist intersection_of_three self
         = Ok "return max(sdist(p, o.o0), max(sdist(p, o.o1), sdist(p, o.o2)));"
       ∧ sdist intersection_of_three self
         ≠ Ok ("return " +:+ render (fold_keys (nest_left "max" None)
                                       (map child_key [0; 1; 2])) +:+ ";")).
Proof.
  split; eexists; (split; [reflexivity|]);
    repeat split; try reflexivity; by vm_compute.
Qed.

(** ** SmoothUnion *)

Lemma k_is_no_child_key (i : nat) : "k" ≠ child_key i.
Proof. unfold child_key. discriminate. Qed.

Lemma children_dict_no_k (kvs : list (nat * ref)) :
  children_dict kvs !! "k" = None.
Proof.
  destruct (children_dict kvs !! "k") as [p|] eqn:Hk; [|done].
  apply children_dict_only_keys in Hk as (kv & _ & Hkey & _).
  by apply k_is_no_child_key in Hkey.
Qed.

(** C5.  A [SmoothUnion] of at least two children keeps [k] as one
    further parameter, the float ["k"], next to the keys of its
    children, and its distance body is a fold of [smin] in which every
    call, one per fold level, takes that one stored [o.k] as its last
    argument. *)
Theorem SmoothUnion_shares_k (st : store) (k : string) (args : list ref) :
  wf_store st → Forall (λ r, r < length st) args → 2 ≤ length args →
  ∃ self e,
    SmoothUnion_init k args st = (st ++ [self], Ok (length st))
    ∧ parameters self
      = <[ "k" := Lit "float" k ]> (children_dict (map (λ r, (r, r)) args))
    ∧ children_dict (map (λ r, (r, r)) args) !! "k" = None
    ∧ (∀ r, r ∈ args → parameters self !! child_key r = Some (Child r))
    ∧ (∀ key ty v, parameters self !! key = Some (Lit ty v) →
         key = "k" ∧ ty = "float" ∧ v = k)
    ∧ e = fold_keys (nest_right "smin" (Some "o.k")) (map child_key args)
    ∧ sdist (st ++ [self]) self = Ok ("return " +:+ render e +:+ ";")
    ∧ every_call "smin" (Some "o.k") e
    ∧ calls e = length args - 1.
Proof.
  intros Hst Hargs Hlen.
  destruct (SDFOperator_init_Ok Cls.SmoothUnion "smin" args st Hst Hargs)
    as [Hinit _].
  assert (SmoothUnion_init k args st
          = (st ++ [mkSDF (length st) Cls.SmoothUnion
                          (<[ "k" := Lit "float" k ]>
                             (children_dict (map (λ r, (r, r)) args)))
                          (Some "vec3(0, 0, 0)") (Some "vec4(0, 0, 0, 1)")
                          "1" args "smin"],
             Ok (length st))) as Hsm.
  { unfold SmoothUnion_init. rewrite Hinit. simpl. rewrite alter_last.
    unfold update_parameters, set_parameters. simpl.
    by rewrite <- insert_union_singleton_l. }
  assert (wf_store (SmoothUnion_init k args st).1) as Hwf.
  { eapply grows_wf; [apply SmoothUnion_init_grows | done]. }
  rewrite Hsm in Hwf. simpl in Hwf.
  eexists _, _. split; [exact Hsm|].
  split; [reflexivity|]. split; [apply children_dict_no_k|].
  split; [|split; [|split; [reflexivity|split; [|split]]]].
  - intros r Hr. simpl.
    rewrite lookup_insert_ne by apply k_is_no_child_key.
    by apply children_dict_own_keys.
  - intros key ty v. simpl. intros Hkey.
    apply lookup_insert_Some in Hkey as [(<- & [= <- <-])|(_ & Hkey)]; [done|].
    by apply children_dict_only_keys in Hkey as (? & _ & _ & ?).
  - apply (operator_node_body Cls.SmoothUnion "smin" (Some "o.k"));
      try done. by left.
  - destruct args as [|d0 ds]; [simpl in Hlen; lia|].
    apply nest_right_calls.
  - destruct args as [|d0 ds]; [simpl in Hlen; lia|].
    cbn [map fold_keys]. rewrite (proj2 (nest_right_calls _ _ _ _)).
    rewrite length_map. simpl. lia.
Qed.

Lemma SmoothUnion_shares_k_witness :
  ∃ self,
    SmoothUnion_init "0.5" [0; 1; 2] (run [NewSphere; NewSphere; NewSphere])
    = (run [NewSphere; NewSphere; NewSphere] ++ [self], Ok 3)
    ∧ parameters self !! "k" = Some (Lit "float" "0.5")
    ∧ sdist (run [NewSphere; NewSphere; NewSphere] ++ [self]) self
      = Ok "return smin(sdist(p, o.o0), smin(sdist(p, o.o1), sdist(p, o.o2), o.k), o.k);".
Proof.
  destruct (SmoothUnion_shares_k
              (run [NewSphere; NewSphere; NewSphere]) "0.5" [0; 1; 2])
    as (self & e & Hinit & Hpar & _ & _ & _ & He & Hbody & _).
  - apply (bool_decide_unpack _). by vm_compute.
  - repeat constructor.
  - simpl. lia.
  - exists self. split; [exact Hinit|]. split.
    + rewrite Hpar. apply lookup_insert_eq.
    + rewrite Hbody, He. reflexivity.
Defined.

(** ** Parameter order *)

Lemma sorted_spec (d : gmap string param) :
  StronglySorted String.le (sorted d)
  ∧ NoDup (sorted d)
  ∧ ∀ k, k ∈ sorted d ↔ is_Some (d !! k).
Proof.
  unfold sorted. split; [apply StronglySorted_merge_sort; apply _|].
  split.
  - rewrite merge_sort_Permutation. apply NoDup_fst_map_to_list.
  - intros k. rewrite merge_sort_Permutation, list_elem_of_fmap. split.
    + intros ([k' p] & -> & Hkp). apply elem_of_map_to_list in Hkp.
      by exists p.
    + intros [p Hp]. exists (k, p). split; [done|].
      by apply elem_of_map_to_list.
Qed.

Lemma mapM_Ok_fmap {A B} (f : A → result B) (g : B → A) (l : list A) (ys : list B) :
  (∀ x y, f x = Ok y → g y = x) → mapM f l = Ok ys → g <$> ys = l.
Proof.
  intros Hfg H%mapM_Ok_inv.
  induction H as [|x y l ys Hxy _ IH]; [done|].
  rewrite fmap_cons. f_equal; [by apply Hfg | done].
Qed.

Lemma mapM_Ok_lookup {A B} (f : A → result B) (l : list A) (ys : list B) i y :
  mapM f l = Ok ys → ys !! i = Some y → ∃ x, l !! i = Some x ∧ f x = Ok y.
Proof.
  intros H%mapM_Ok_inv Hy.
  destruct (Forall2_lookup_r _ _ _ _ _ H Hy) as (x & Hx & Hf). by exists x.
Qed.

Lemma declaration_fields_spec st self fs :
  declaration_fields st self = Ok fs →
  fs.*2 = sorted (parameters self)
  ∧ ∀ i ty nm, fs !! i = Some (ty, nm) →
      ∃ p, parameters self !! nm = Some p ∧ getitem0 st p = Ok ty.
Proof.
  unfold declaration_fields. intros H. split.
  - revert H. apply mapM_Ok_fmap. intros x [ty nm].
    destruct (parameters self !! x) as [p|]; simpl; [|done].
    destruct (getitem0 st p); simpl; [|done..]. by intros [= _ <-].
  - intros i ty nm Hi.
    destruct (mapM_Ok_lookup _ _ _ _ _ H Hi) as (x & _ & Hx).
    destruct (parameters self !! x) as [p|] eqn:Hp; simpl in Hx; [|done].
    destruct (getitem0 st p) as [ty'| |] eqn:Hty; simpl in Hx; try done.
    injection Hx as <- <-. by exists p.
Qed.

Lemma initialisation_values_step fuel st self :
  initialisation_values (S fuel) st self
  = mapM (λ param,
            p ← of_option (parameters self !! param);
            v ← match p with
                | Lit _ v => Ok v
                | Child r => o ← of_option (st !! r); initialisation fuel st o
                end;
            Ok (param, v))
         (sorted (parameters self)).
Proof.
  simpl. f_equal.
Qed.

Lemma initialisation_values_spec fuel st self vs :
  initialisation_values fuel st self = Ok vs →
  vs.*1 = sorted (parameters self)
  ∧ ∀ i nm v, vs !! i = Some (nm, v) →
      ∃ p, parameters self !! nm = Some p ∧ param_value (pred fuel) st p v.
Proof.
  destruct fuel as [|fuel]; [done|].
  rewrite initialisation_values_step. intros H. split.
  - revert H. apply mapM_Ok_fmap. intros x [nm v].
    destruct (parameters self !! x) as [p|]; simpl; [|done].
    destruct p as [ty v'|r]; simpl; [by intros [= <- _]|].
    destruct (st !! r) as [o|]; simpl; [|done].
    destruct (initialisation fuel st o); simpl; [|done..]. by intros [= <- _].
  - intros i nm v Hi.
    destruct (mapM_Ok_lookup _ _ _ _ _ H Hi) as (x & _ & Hx).
    destruct (parameters self !! x) as [p|] eqn:Hp; simpl in Hx; [|done].
    exists p. destruct p as [ty v'|r]; simpl in Hx.
    + injection Hx as <- <-. done.
    + destruct (st !! r) as [o|] eqn:Ho; simpl in Hx; [|done].
      destruct (initialisation fuel st o) as [v'| |] eqn:Hv; simpl in Hx;
        try done.
      injection Hx as <- <-. split; [done|]. simpl. by exists o.
Qed.

(** C4.  [declaration] and every call of [initialisation] walk through
    the parameters of a node in one and the same order, the names
    ascending in the order of strings without repetition: at every
    index the field declared there and the value emitted there belong
    to the parameter of the same name.  The order depends on the names
    of the parameters alone, so it is the same for every store and
    budget the calls are made with. *)
Theorem declaration_initialisation_aligned (st st' : store) (fuel : nat)
    (self self' : SDF) (fs vs : list (string * string)) :
  parameters self' = parameters self →
  declaration_fields st self = Ok fs →
  initialisation_values fuel st' self' = Ok vs →
  fs.*2 = vs.*1
  ∧ fs.*2 = sorted (parameters self)
  ∧ StronglySorted String.le fs.*2
  ∧ NoDup fs.*2
  ∧ (∀ nm, nm ∈ fs.*2 ↔ is_Some (parameters self !! nm))
  ∧ (∀ i ty nm, fs !! i = Some (ty, nm) →
       ∃ v p, vs !! i = Some (nm, v)
              ∧ parameters self !! nm = Some p
              ∧ getitem0 st p = Ok ty
              ∧ param_value (pred fuel) st' p v)
  ∧ (∀ body, sdist st self = Ok body →
       declaration st self
       = Ok ("SDFType(" +:+ glsl_struct_name self +:+ "," +:+ nl
             +:+ "{" +:+ nl
             +:+ join (map (λ f, f.1 +:+ " " +:+ f.2 +:+ ";" +:+ nl) fs)
             +:+ "Transform t;" +:+ nl +:+ "}," +:+ nl
             +:+ "{" +:+ nl +:+ body +:+ nl +:+ "})"))
  ∧ initialisation fuel st' self'
    = Ok (glsl_struct_name self' +:+ "("
          +:+ join (map (λ nv, nv.2 +:+ ", ") vs)
          +:+ transform_text self').
Proof.
  intros Hpar Hfs Hvs.
  destruct (declaration_fields_spec _ _ _ Hfs) as [Hnames Hfield].
  destruct (initialisation_values_spec _ _ _ _ Hvs) as [Hnames' Hvalue].
  rewrite Hpar in Hnames', Hvalue.
  destruct (sorted_spec (parameters self)) as (Hsorted & Hnodup & Hdom).
  split; [congruence|]. split; [done|].
  rewrite Hnames. do 3 (split; [done|]).
  split; [|split].
  - intros i ty nm Hi.
    destruct (Hfield i ty nm Hi) as (p & Hp & Hty).
    assert (vs.*1 !! i = Some nm) as Hnm.
    { rewrite Hnames', <- Hnames, list_lookup_fmap, Hi. done. }
    rewrite list_lookup_fmap in Hnm.
    destruct (vs !! i) as [[nm' v]|] eqn:Hv; simpl in Hnm; [|done].
    injection Hnm as ->.
    destruct (Hvalue i nm v Hv) as (p' & Hp' & Hpv).
    exists v, p. rewrite Hp in Hp'. injection Hp' as <-. done.
  - intros body Hbody. unfold declaration. by rewrite Hfs, Hbody.
  - unfold initialisation. by rewrite Hvs.
Qed.

Lemma declaration_initialisation_aligned_witness :
  smooth_scene !! 3 = Some smooth_union_node
  ∧ [("float", "k"); ("SDF0", "o0"); ("SDF1", "o1"); ("SDF2", "o2")].*2
    = [("k", "0.5");
       ("o0", "SDF0(Transform(vec4(0, 0, 0, 1), vec3(0, 0, 0), 1))");
       ("o1", "SDF1(vec3(1, 1, 1), Transform(vec4(0, 0, 0, 1), (vec3(0, 0, 0) + vec3(2, 0, 0)), 1))");
       ("o2", "SDF2(2, 1, Transform(vec4(0, 0, 0, 1), vec3(0, 0, 0), 1))")].*1.
Proof.
  split; [by vm_compute|].
  apply (declaration_initialisation_aligned
           smooth_scene smooth_scene 2 smooth_union_node smooth_union_node).
  - reflexivity.
  - by vm_compute.
  - by vm_compute.
Defined.

(** ** Scene.process *)

Lemma mapM_total {A B} (f : A → result B) (l : list A) :
  Forall (λ x, ∃ y, f x = Ok y) l → ∃ ys, mapM f l = Ok ys.
Proof.
  induction 1 as [|x l [y Hy] _ [ys IH]]; [by exists []|].
  exists (y :: ys). simpl. by rewrite Hy, IH.
Qed.

Lemma declaration_fields_total (st : store) (i : nat) (o : SDF) :
  wf_store st → st !! i = Some o → ∃ fs, declaration_fields st o = Ok fs.
Proof.
  intros Hst Ho.
  destruct (proj1 (wf_store_lookup st) Hst i o Ho) as (_ & _ & Hpar).
  apply mapM_total, Forall_forall. intros k Hk.
  apply (proj2 (proj2 (sorted_spec _))) in Hk as [p Hp].
  rewrite Hp. simpl. specialize (Hpar k p Hp).
  destruct p as [ty v|r]; simpl; [by eexists|].
  simpl in Hpar. pose proof (lookup_lt_Some _ _ _ Ho) as Hi.
  destruct (lookup_lt_is_Some_2 st r) as [c Hc]; [lia|].
  rewrite Hc. simpl. by eexists.
Qed.

Lemma sdist_total (st : store) (i : nat) (o : SDF) :
  wf_store st → st !! i = Some o → arity_ok o → ∃ body, sdist st o = Ok body.
Proof.
  intros Hst Ho Har.
  destruct (proj1 (wf_store_lookup st) Hst i o Ho) as (_ & Hobj & _).
  pose proof (lookup_lt_Some _ _ _ Ho) as Hi.
  assert (Forall (λ r, r < length st) (objects o)) as Hobj'.
  { eapply Forall_impl; [exact Hobj|]. simpl. intros r Hr. lia. }
  destruct (is_operator (cls o)) eqn:Hop.
  - specialize (Har Hop).
    destruct (cls o) eqn:Hc; try discriminate Hop.
    + eexists. apply (operator_body st o None); try done.
      right. rewrite Hc. split; [set_solver|done].
    + eexists. apply (operator_body st o None); try done.
      right. rewrite Hc. split; [set_solver|done].
    + eexists. apply (operator_body st o None); try done.
      right. rewrite Hc. split; [set_solver|done].
    + eexists. apply (operator_body st o (Some "o.k")); try done.
      left. by rewrite Hc.
  - unfold sdist. destruct (cls o); try discriminate Hop; by eexists.
Qed.

Lemma declaration_total (st : store) (i : nat) (o : SDF) :
  wf_store st → st !! i = Some o → arity_ok o → ∃ text, declaration st o = Ok text.
Proof.
  intros Hst Ho Har.
  destruct (declaration_fields_total st i o Hst Ho) as [fs Hfs].
  destruct (sdist_total st i o Hst Ho Har) as [body Hbody].
  unfold declaration. rewrite Hfs, Hbody. by eexists.
Qed.

Lemma sdf_types_total (st : store) :
  wf_store st → Forall arity_ok st → ∃ types, sdf_types st = Ok types.
Proof.
  intros Hst Har. unfold sdf_types.
  destruct (mapM_total (declaration st) st) as [decls Hd].
  { apply Forall_lookup. intros i o Ho.
    apply (declaration_total st i o Hst Ho).
    by eapply (proj1 (Forall_lookup _ _) Har). }
  rewrite Hd. by eexists.
Qed.

Lemma sorted_empty : sorted ∅ = [].
Proof. unfold sorted. by rewrite map_to_list_empty. Qed.

Lemma initialisation_fresh (fuel : nat) (st : store) (c : Cls.t) (i : nat) :
  initialisation (S fuel) st
    (mkSDF i c ∅ (Some "vec3(0, 0, 0)") (Some "vec4(0, 0, 0, 1)") "1" [] "")
  = Ok ("SDF" +:+ str_nat i
        +:+ "(Transform(vec4(0, 0, 0, 1), vec3(0, 0, 0), 1))").
Proof.
  unfold initialisation. rewrite initialisation_values_step. simpl.
  by rewrite sorted_empty.
Qed.

(** With a budget above its position the initialisation of an object
    of a well-formed store returns: the references go down. *)
Lemma initialisation_total (st : store) (fuel i : nat) (o : SDF) :
  wf_store st → st !! i = Some o → i < fuel →
  ∃ text, initialisation fuel st o = Ok text.
Proof.
  intros Hst. revert i o.
  induction fuel as [|fuel IH]; intros i o Ho Hi; [lia|].
  destruct (proj1 (wf_store_lookup st) Hst i o Ho) as (_ & _ & Hpar).
  unfold initialisation. rewrite initialisation_values_step.
  destruct (mapM_total
              (λ param,
                 p ← of_option (parameters o !! param);
                 v ← match p with
                     | Lit _ v => Ok v
                     | Child r => c ← of_option (st !! r); initialisation fuel st c
                     end;
                 Ok (param, v))
              (sorted (parameters o))) as [vs Hvs].
  { apply Forall_forall. intros k Hk.
    apply (proj2 (proj2 (sorted_spec _))) in Hk as [p Hp].
    rewrite Hp. simpl. specialize (Hpar k p Hp).
    destruct p as [ty v|r]; simpl; [by eexists|].
    simpl in Hpar. pose proof (lookup_lt_Some _ _ _ Ho) as Hlen.
    destruct (lookup_lt_is_Some_2 st r) as [c Hc]; [lia|].
    rewrite Hc. simpl.
    destruct (IH r c Hc) as [text Htext]; [lia|].
    rewrite Htext. by eexists. }
  rewrite Hvs. by eexists.
Qed.

(** [process] returns on every well-formed store whose operators have
    their two children, whatever root the scene has. *)
Lemma process_returns (tpl : string) (sc : Scene) (st : store) :
  wf_store st → Forall arity_ok st →
  (∀ r, sdf sc = Some r → r < length st) →
  ∃ out, (process tpl sc st).2 = Ok out.
Proof.
  intros Hst Har Hroot.
  assert (∃ sc' st' root, resolve_root sc st = (sc', st', root)
            ∧ wf_store st' ∧ Forall arity_ok st' ∧ root < length st')
    as (sc' & st' & root & Hres & Hwf & Har' & Hlt).
  { unfold resolve_root. destruct (sdf sc) as [r|]; simpl.
    - exists sc, st, r. repeat split; auto.
    - eexists _, _, _. split; [reflexivity|]. split; [|split].
      + apply wf_store_snoc; [done|].
        apply wf_node_fresh; [constructor | apply map_Forall_empty].
      + apply Forall_app. split; [done|]. by repeat constructor.
      + rewrite length_app. simpl. lia. }
  unfold process. rewrite Hres. simpl.
  destruct (sdf_types_total st' Hwf Har') as [types ->].
  destruct (lookup_lt_is_Some_2 st' root Hlt) as [o Ho].
  destruct (initialisation_total st' (length st') root o Hwf Ho Hlt)
    as [text Htext].
  unfold sdscene. rewrite Ho. simpl. rewrite Htext. simpl.
  destruct (readline tpl). by eexists.
Qed.

(** C9.  When the root of the scene is unset, [process] does not fail
    (the operators in the list having their two children, as the
    operator classes require of their caller): it returns, having
    built a new [Emptiness] and made it the root, and the final
    statement it emits returns the distance of that node, whose body is
    [return INF;]. *)
Theorem process_unset_root (tpl : string) (nm : option string) (st : store) :
  wf_store st → Forall arity_ok st →
  ∃ root types scene,
    process tpl (mkScene nm None) st
    = (mkScene nm (Some (length st)), st ++ [root],
       Ok ((readline tpl).1
           +:+ "#define TEMPLATE_SDFTYPES \" +:+ nl
           +:+ escape_newlines types +:+ nl
           +:+ "#define TEMPLATE_SDSCENE \" +:+ nl
           +:+ escape_newlines scene +:+ nl
           +:+ (readline tpl).2))
    ∧ root = mkSDF (length st) Cls.Emptiness ∅ (Some "vec3(0, 0, 0)")
                   (Some "vec4(0, 0, 0, 1)") "1" [] ""
    ∧ sdf_types (st ++ [root]) = Ok types
    ∧ sdscene (st ++ [root]) (length st) = Ok scene
    ∧ scene = "return sdist(p, " +:+ glsl_struct_name root
              +:+ "(Transform(vec4(0, 0, 0, 1), vec3(0, 0, 0), 1)));"
    ∧ sdist (st ++ [root]) root = Ok "return INF;".
Proof.
  intros Hst Har.
  set (root := mkSDF (length st) Cls.Emptiness ∅ (Some "vec3(0, 0, 0)")
                     (Some "vec4(0, 0, 0, 1)") "1" [] "").
  assert (wf_store (st ++ [root])) as Hwf.
  { apply wf_store_snoc; [done|].
    apply wf_node_fresh; [constructor | apply map_Forall_empty]. }
  assert (Forall arity_ok (st ++ [root])) as Har'.
  { apply Forall_app. split; [done|]. by repeat constructor. }
  destruct (sdf_types_total _ Hwf Har') as [types Htypes].
  assert (sdscene (st ++ [root]) (length st)
          = Ok ("return sdist(p, " +:+ glsl_struct_name root
                +:+ "(Transform(vec4(0, 0, 0, 1), vec3(0, 0, 0), 1)));"))
    as Hscene.
  { unfold sdscene. rewrite list_lookup_middle by done. simpl.
    rewrite length_app, Nat.add_comm. simpl.
    unfold root. rewrite initialisation_fresh. simpl. f_equal.
    unfold glsl_struct_name. simpl. by rewrite !app_assoc_str. }
  exists root, types,
    ("return sdist(p, " +:+ glsl_struct_name root
     +:+ "(Transform(vec4(0, 0, 0, 1), vec3(0, 0, 0), 1)));").
  split; [|by repeat split].
  unfold process, resolve_root. simpl. fold root.
  rewrite Htypes, Hscene. simpl.
  by destruct (readline tpl).
Qed.

Lemma process_unset_root_witness :
  ∃ out,
    process sample_template (mkScene None None) (run [NewSphere])
    = (mkScene None (Some 1),
       run [NewSphere; NewEmptiness],
       Ok out).
Proof.
  destruct (process_unset_root sample_template None (run [NewSphere]))
    as (root & types & scene & Hp & Hroot & _).
  - apply (bool_decide_unpack _). by vm_compute.
  - repeat constructor. by vm_compute.
  - eexists. rewrite Hp, Hroot. reflexivity.
Defined.

(** The precondition on the operators is needed, and has nothing to do
    with the root: after [Union(Sphere())], [process] builds the
    [Emptiness] for the unset root and then raises [IndexError] from
    the declaration of the one-child [Union]. *)
Lemma unset_root_process_can_fail :
  wf_store union_of_one
  ∧ (process sample_template (mkScene None None) union_of_one).2
    = Raise (IndexError "tuple index out of range")
  ∧ raises (process sample_template (mkScene None None) union_of_one).2
  ∧ (process sample_template (mkScene None None) union_of_one).1.1
    = mkScene None (Some 2)
  ∧ ∃ self, union_of_one !! 1 = Some self
            ∧ cls self = Cls.Union ∧ objects self = [0].
Proof.
  split; [apply run_wf|].
  split; [by vm_compute|]. split; [by vm_compute|]. split; [by vm_compute|].
  eexists. split; [reflexivity|]. by split.
Qed.

(** The scene of a sphere and a translated box under a [Union]: three
    objects with the struct names [SDF0], [SDF1], [SDF2], and a final
    statement that builds [SDF2] from the other two. *)
Example sphere_and_box_scene :
  map glsl_struct_name sphere_and_box = ["SDF0"; "SDF1"; "SDF2"]
  ∧ sdscene sphere_and_box 2
    = Ok "return sdist(p, SDF2(SDF0(Transform(vec4(0, 0, 0, 1), vec3(0, 0, 0), 1)), SDF1(vec3(1, 1, 1), Transform(vec4(0, 0, 0, 1), (vec3(0, 0, 0) + vec3(2, 0, 0)), 1)), Transform(vec4(0, 0, 0, 1), vec3(0, 0, 0), 1)));".
Proof. split; by vm_compute. Qed.

(** ** Constructions and ids *)

Lemma SmoothUnion_init_Ok (k : string) (args : list ref) (st : store) :
  wf_store st → Forall (λ r, r < length st) args →
  SmoothUnion_init k args st
  = (st ++ [mkSDF (length st) Cls.SmoothUnion
                  (<[ "k" := Lit "float" k ]>
                     (children_dict (map (λ r, (r, r)) args)))
                  (Some "vec3(0, 0, 0)") (Some "vec4(0, 0, 0, 1)")
                  "1" args "smin"],
     Ok (length st)).
Proof.
  intros Hst Hargs.
  destruct (SDFOperator_init_Ok Cls.SmoothUnion "smin" args st Hst Hargs)
    as [Hinit _].
  unfold SmoothUnion_init. rewrite Hinit. simpl. rewrite alter_last.
  unfold update_parameters, set_parameters. simpl.
  by rewrite <- insert_union_singleton_l.
Qed.

(** A constructor call whose children exist registers one object: the
    store grows by that object, which has the next id and the class of
    the constructor, and the call returns the reference to it, the one
    exception being the [AABBox] whose argument is refused after the
    registration. *)
Lemma constructor_registers (st : store) (c : call) (k : Cls.t)
    (init : store → store * result ref) :
  wf_store st →
  constructor c = Some (k, init) →
  Forall (λ r, r < length st) (call_refs c) →
  ∃ o,
    exec c st = (init st).1
    ∧ (init st).1 = st ++ [o]
    ∧ id o = length st
    ∧ cls o = k
    ∧ ((init st).2 = Ok (length st)
       ∨ ∃ repr, c = NewAABBox (PyOther repr) ∧ raises_ValueError (init st).2).
Proof.
  intros Hst Hc Hrefs.
  destruct c; try discriminate; injection Hc as <- <-; simpl in Hrefs.
  - eexists. repeat split. by left.
  - eexists. repeat split. by left.
  - eexists. repeat split. by left.
  - unfold exec, AABBox_init. simpl.
    rewrite to_glsl_vec_in_range by lia.
    destruct r as [s|items|repr]; simpl; rewrite ?alter_last;
      eexists; repeat split; try (by left).
    right. by exists repr.
  - unfold exec, Cylinder_init. simpl. rewrite alter_last.
    eexists. repeat split. by left.
  - simpl. destruct (SDFOperator_init_Ok Cls.SDFOperator f args st Hst Hrefs)
      as [-> _].
    eexists. repeat split. by left.
  - simpl. unfold Intersection_init.
    destruct (SDFOperator_init_Ok Cls.Intersection "max" args st Hst Hrefs)
      as [-> _].
    eexists. repeat split. by left.
  - simpl. unfold Union_init.
    destruct (SDFOperator_init_Ok Cls.Union "min" args st Hst Hrefs)
      as [-> _].
    eexists. repeat split. by left.
  - simpl. rewrite SmoothUnion_init_Ok by done.
    eexists. repeat split. by left.
  - simpl. inversion Hrefs as [|? ? H1 Hrest]; subst.
    inversion Hrest as [|? ? H2 _]; subst.
    rewrite Difference_init_Ok by done.
    eexists. repeat split. by left.
Qed.

(** C3.  In every run the k-th node constructed has id k, whatever its
    class.  A constructor call on the store of a run registers one
    object at the end of the list, with the length of the list as its
    id and the class of the constructor, and returns the reference to
    it; so does [process] for the [Emptiness] of an unset root.  Hence
    the ids assigned by the constructions are 0, 1, 2, ... in the order
    the objects are built; the object at position [i] of the list has
    id [i] and struct name ["SDF"] followed by [i]; and whatever the
    script does afterwards, the object at that position keeps its id,
    its class and its struct name. *)
Theorem ids_follow_creation_order (script : list call) :
  created_from [] script = seq 0 (length (run script))
  ∧ (∀ i o, run script !! i = Some o →
       id o = i ∧ glsl_struct_name o = "SDF" +:+ str_nat i)
  ∧ (∀ more i o, run script !! i = Some o →
       ∃ o', run (script ++ more) !! i = Some o'
             ∧ id o' = id o ∧ cls o' = cls o
             ∧ glsl_struct_name o' = glsl_struct_name o)
  ∧ (∀ c k init,
       constructor c = Some (k, init) →
       Forall (λ r, r < length (run script)) (call_refs c) →
       ∃ o,
         run (script ++ [c]) = run script ++ [o]
         ∧ (init (run script)).1 = run script ++ [o]
         ∧ id o = length (run script)
         ∧ cls o = k
         ∧ glsl_struct_name o = "SDF" +:+ str_nat (length (run script))
         ∧ ((init (run script)).2 = Ok (length (run script))
            ∨ ∃ repr, c = NewAABBox (PyOther repr)
                      ∧ raises_ValueError (init (run script)).2))
  ∧ (∀ tpl nm,
       ∃ o,
         run (script ++ [Process tpl (mkScene nm None)]) = run script ++ [o]
         ∧ id o = length (run script)
         ∧ cls o = Cls.Emptiness
         ∧ sdf (process tpl (mkScene nm None) (run script)).1.1
           = Some (length (run script))).
Proof.
  split; [|split; [|split; [|split]]].
  - unfold run. rewrite created_from_seq. simpl. by rewrite Nat.sub_0_r.
  - intros i o Hi.
    destruct (proj1 (wf_store_lookup _) (run_wf script) i o Hi) as (Hid & _).
    unfold glsl_struct_name. by rewrite Hid.
  - intros more i o Hi. unfold run. rewrite run_from_app.
    destruct (run_from_lookup _ more i o Hi) as (o' & Hi' & Hid & Hcls & _).
    exists o'. unfold glsl_struct_name. by rewrite Hid.
  - intros c k init Hc Hrefs.
    destruct (constructor_registers (run script) c k init (run_wf script)
                Hc Hrefs) as (o & Hexec & Hst & Hid & Hcls & Hret).
    exists o. unfold run at 1. rewrite run_from_snoc. fold (run script).
    rewrite Hexec. split; [done|]. split; [done|]. split; [done|].
    split; [done|]. split; [|done].
    unfold glsl_struct_name. by rewrite Hid.
  - intros tpl nm. eexists.
    unfold run at 1. rewrite run_from_snoc. fold (run script).
    unfold exec, process, resolve_root. simpl. by repeat split.
Qed.

Lemma ids_follow_creation_order_witness :
  ∃ o, run ([NewSphere; NewPlane] ++ [NewUnion [0; 1]])
       = run [NewSphere; NewPlane] ++ [o]
       ∧ (Union_init [0; 1] (run [NewSphere; NewPlane])).2 = Ok 2
       ∧ id o = 2 ∧ cls o = Cls.Union ∧ glsl_struct_name o = "SDF2".
Proof.
  destruct (ids_follow_creation_order [NewSphere; NewPlane])
    as (_ & _ & _ & H & _).
  destruct (H (NewUnion [0; 1]) Cls.Union (Union_init [0; 1]) eq_refl)
    as (o & Hrun & _ & Hid & Hcls & Hname & Hret).
  - repeat constructor.
  - exists o. split; [exact Hrun|].
    split; [|split; [exact Hid|split; [exact Hcls | exact Hname]]].
    destruct Hret as [Hret|(repr & Hc & _)]; [exact Hret | discriminate Hc].
Defined.

(** * Further properties of the module *)

(** ** Vector conversion of a sequence *)

Lemma length_app_str (a b : string) :
  String.length (a +:+ b) = String.length a + String.length b.
Proof.
  induction a as [|x a IH]; [done|].
  change (S (String.length (a +:+ b)) = S (String.length a + String.length b)).
  by rewrite IH.
Qed.

Lemma substring_prefix (a b : string) :
  String.substring 0 (String.length a) (a +:+ b) = a.
Proof.
  induction a as [|x a IH]; [by destruct b|].
  change (String x (String.substring 0 (String.length a) (a +:+ b)) = String x a).
  by rewrite IH.
Qed.

Lemma slice_to_neg2_separator (s : string) : slice_to_neg2 (s +:+ ", ") = s.
Proof.
  unfold slice_to_neg2. rewrite length_app_str.
  replace (String.length s + String.length ", " - 2) with (String.length s)
    by (simpl; lia).
  apply substring_prefix.
Qed.

Lemma join_loop_concat (acc x : string) (items : list string) :
  foldl (λ answer i, answer +:+ i +:+ ", ") acc (x :: items)
  = (acc +:+ String.concat ", " (x :: items)) +:+ ", ".
Proof.
  revert acc x. induction items as [|y items IH]; intros acc x.
  - simpl. by rewrite !app_assoc_str.
  - change (foldl (λ answer i, answer +:+ i +:+ ", ") (acc +:+ x +:+ ", ")
                  (y :: items)
            = (acc +:+ x +:+ ", " +:+ String.concat ", " (y :: items)) +:+ ", ").
    rewrite IH. by rewrite !app_assoc_str.
Qed.

(** X1.  For a sequence with at least one item and a dimension in
    range, [to_glsl_vec] returns the constructor call with the items
    joined by a comma and a blank: the cut of two characters removes
    the separator after the last item.  The number of items is not
    compared with the dimension. *)
Theorem to_glsl_vec_joins_items (n : Z) (x : string) (items : list string) :
  (2 ≤ n ≤ 4)%Z →
  to_glsl_vec (PyIterable (x :: items)) n
  = Ok ("vec" +:+ str_int n +:+ "(" +:+ String.concat ", " (x :: items) +:+ ")").
Proof.
  intros Hn. rewrite to_glsl_vec_in_range by done. f_equal.
  rewrite join_loop_concat, slice_to_neg2_separator.
  by rewrite !app_assoc_str.
Qed.

Lemma to_glsl_vec_joins_items_witness :
  to_glsl_vec (PyIterable ["1"; "2"]) 3 = Ok "vec3(1, 2)".
Proof. apply (to_glsl_vec_joins_items 3 "1" ["2"]). lia. Defined.

(** ** Transform calls *)

Lemma set_scale_twice k1 k2 o : set_scale k2 (set_scale k1 o) = set_scale k2 o.
Proof. done. Qed.

Lemma scaled_Ok self k st o :
  st !! self = Some o →
  scaled self k st
  = (alter (set_scale ("(" +:+ scale o +:+ " * (" +:+ k +:+ "))")) self st,
     Ok self).
Proof. intros Ho. unfold scaled. by rewrite Ho. Qed.

(** X2.  [scaled] never raises on an existing object, and a chain of
    calls multiplies up from the left: after the factors [ks] the scale
    reads [((old * (k1)) * (k2)) ...], every other attribute of the
    object and every other object being as before. *)
Theorem scaled_chain (st : store) (self : ref) (o : SDF) (ks : list string) :
  st !! self = Some o →
  run_from st (map (Scaled self) ks) !! self
  = Some (set_scale (scaled_by (scale o) ks) o)
  ∧ (∀ j, j ≠ self → run_from st (map (Scaled self) ks) !! j = st !! j)
  ∧ (∀ k, (scaled self k (run_from st (map (Scaled self) ks))).2 = Ok self).
Proof.
  revert st o. induction ks as [|k ks IH]; intros st o Ho.
  - simpl. split; [by destruct o|]. split; [done|].
    intros k. by rewrite (scaled_Ok _ _ _ o).
  - change (run_from st (map (Scaled self) (k :: ks)))
      with (run_from (scaled self k st).1 (map (Scaled self) ks)).
    rewrite (scaled_Ok _ _ _ o Ho). simpl.
    destruct (IH (alter (set_scale ("(" +:+ scale o +:+ " * (" +:+ k +:+ "))"))
                        self st)
                 (set_scale ("(" +:+ scale o +:+ " * (" +:+ k +:+ "))") o))
      as (H1 & H2 & H3).
    { by rewrite list_lookup_alter_eq, Ho. }
    split; [by rewrite H1|]. split; [|done].
    intros j Hj. rewrite H2 by done. by rewrite list_lookup_alter_ne.
Qed.

Lemma scaled_chain_witness :
  ∃ o, run [NewSphere; Scaled 0 "2"; Scaled 0 "s"] !! 0 = Some o
       ∧ scale o = "((1 * (2)) * (s))".
Proof.
  destruct (scaled_chain (run [NewSphere]) 0
              (mkSDF 0 Cls.Sphere ∅ (Some "vec3(0, 0, 0)")
                     (Some "vec4(0, 0, 0, 1)") "1" [] "")
              ["2"; "s"] eq_refl) as (H & _).
  eexists. split; [exact H | reflexivity].
Defined.

Lemma alter_missing (f : SDF → SDF) (i : nat) (st : store) :
  st !! i = None → alter f i st = st.
Proof.
  intros Hi. apply list_eq. intros j.
  destruct (decide (i = j)) as [->|?].
  - by rewrite list_lookup_alter_eq, Hi.
  - by rewrite list_lookup_alter_ne.
Qed.

Lemma alter_at (f g : SDF → SDF) (i : nat) (st : store) (o : SDF) :
  st !! i = Some o → f o = g o → alter f i st = alter g i st.
Proof.
  intros Hi Hfg. apply list_alter_ext; [|done].
  intros o' Ho'. rewrite Hi in Ho'. by injection Ho' as <-.
Qed.

(** A transform call is an update of the one object it is made on. *)
Lemma exec_transform (c : call) (self : ref) (a : attr) (st : store) :
  transform_target c = Some (self, a) →
  exec c st = alter (node_update c) self st.
Proof.
  destruct c; try discriminate; intros [= -> <-]; unfold node_update; simpl.
  - unfold translated. destruct (st !! self) as [o|] eqn:Ho; simpl;
      [|by rewrite alter_missing].
    destruct (translation o) eqn:Ht, (to_glsl_vec tr 3) eqn:Hv; simpl;
      try (symmetry; by apply list_alter_id);
      apply (alter_at _ _ _ _ o Ho); by rewrite Ht.
  - unfold rotated, rotated_quaternion.
    destruct (to_glsl_vec u 3) as [v| |]; simpl;
      try (symmetry; by apply list_alter_id).
    destruct (st !! self) as [o|] eqn:Ho; simpl; [done|].
    by rewrite alter_missing.
  - unfold rotated_quaternion.
    destruct (st !! self) as [o|] eqn:Ho; simpl; [|by rewrite alter_missing].
    destruct (to_glsl_vec q 4); simpl; try done;
      symmetry; by apply list_alter_id.
  - unfold scaled. destruct (st !! self) as [o|] eqn:Ho; simpl;
      [|by rewrite alter_missing].
    by apply (alter_at _ _ _ _ o Ho).
Qed.

Lemma node_update_frame (c : call) (o : SDF) : same_frame (node_update c o) o.
Proof.
  destruct c; simpl; try (by repeat split).
  - destruct (to_glsl_vec tr 3); by repeat split.
  - destruct (to_glsl_vec u 3); by repeat split.
  - destruct (to_glsl_vec q 4); by repeat split.
Qed.

(** X3.  Transform calls that assign different attributes, or are made
    on different objects, can be made in either order: the store after
    the two calls is the same, whether the calls return or raise. *)
Theorem transforms_commute (c1 c2 : call) (t1 t2 : ref * attr) (st : store) :
  transform_target c1 = Some t1 →
  transform_target c2 = Some t2 →
  t1 ≠ t2 →
  exec c2 (exec c1 st) = exec c1 (exec c2 st).
Proof.
  destruct t1 as [s1 a1], t2 as [s2 a2]. intros H1 H2 Hne.
  rewrite !(exec_transform c1 s1 a1), !(exec_transform c2 s2 a2) by done.
  destruct (decide (s1 = s2)) as [->|Hs]; [|by apply list_alter_alter_ne].
  assert (a1 ≠ a2) as Ha by congruence.
  rewrite !list_alter_alter_eq. apply list_alter_ext; [|done].
  intros o _. simpl.
  destruct c1; try discriminate; destruct c2; try discriminate;
    injection H1 as _ <-; injection H2 as _ <-; try done; simpl;
    repeat match goal with
           | |- context [to_glsl_vec ?v ?n] => destruct (to_glsl_vec v n)
           end; try done.
Qed.

Lemma transforms_commute_witness :
  run [NewSphere; Translated 0 (PyStr "t"); Scaled 0 "2"]
  = run [NewSphere; Scaled 0 "2"; Translated 0 (PyStr "t")].
Proof.
  apply (transforms_commute (Translated 0 (PyStr "t")) (Scaled 0 "2")
           (0, ATranslation) (0, AScale) (run [NewSphere]));
    [reflexivity | reflexivity | discriminate].
Defined.

(** X4.  A transform call keeps the list as long as it is and touches
    one object only; of that object it keeps the id, the class, the
    parameters and the children, and of the three transform attributes
    it changes none but its own. *)
Theorem transform_touches_one_attribute (c : call) (self : ref) (a : attr)
    (st : store) :
  transform_target c = Some (self, a) →
  length (exec c st) = length st
  ∧ (∀ j, j ≠ self → exec c st !! j = st !! j)
  ∧ (∀ o, st !! self = Some o →
       ∃ o', exec c st !! self = Some o'
             ∧ same_frame o' o
             ∧ (a ≠ ATranslation → translation o' = translation o)
             ∧ (a ≠ ARotation → rotation o' = rotation o)
             ∧ (a ≠ AScale → scale o' = scale o)).
Proof.
  intros Hc. rewrite (exec_transform c self a) by done.
  split; [apply length_alter|]. split.
  - intros j Hj. by rewrite list_lookup_alter_ne.
  - intros o Ho. exists (node_update c o).
    split; [by rewrite list_lookup_alter_eq, Ho|].
    split; [apply node_update_frame|].
    destruct c; try discriminate; injection Hc as _ <-; simpl;
      repeat match goal with
             | |- context [to_glsl_vec ?v ?n] => destruct (to_glsl_vec v n)
             end; by repeat split.
Qed.

Lemma transform_touches_one_attribute_witness :
  length (exec (Rotated 0 (PyOther "7") "a") (run [NewSphere; NewPlane])) = 2.
Proof.
  apply (transform_touches_one_attribute (Rotated 0 (PyOther "7") "a")
           0 ARotation (run [NewSphere; NewPlane]) eq_refl).
Defined.

(** ** A box whose argument is refused *)

(** X5.  [AABBox] fails only on an argument that is neither a string
    nor iterable, with [ValueError]; by then the object is in the list:
    a box without the parameter [r], whose declaration has no field and
    still reads [o.r] in its body. *)
Theorem AABBox_refused_argument (st : store) (r : pyvalue) (e : exn) :
  (AABBox_init r st).2 = Raise e →
  ∃ repr self,
    r = PyOther repr
    ∧ e = ValueError ("Cannot convert '" +:+ repr +:+ "' to GLSL's vec3")
    ∧ (AABBox_init r st).1 = st ++ [self]
    ∧ id self = length st ∧ cls self = Cls.AABBox ∧ parameters self = ∅
    ∧ ∀ st',
        declaration st' self
        = Ok ("SDFType(" +:+ glsl_struct_name self +:+ "," +:+ nl
              +:+ "{" +:+ nl +:+ "Transform t;" +:+ nl +:+ "}," +:+ nl
              +:+ "{" +:+ nl
              +:+ "vec3 d = abs(p) - o.r; return min(max(d.x, max(d.y, d.z)), 0.0) + length(max(d, 0.0));"
              +:+ nl +:+ "})").
Proof.
  unfold AABBox_init. simpl.
  rewrite to_glsl_vec_in_range by lia.
  destruct r as [s|items|repr]; simpl; try done.
  intros [= <-]. eexists repr, _.
  do 6 (split; [reflexivity|]).
  intros st'. unfold declaration, declaration_fields. simpl.
  by rewrite sorted_empty.
Qed.

Lemma AABBox_refused_argument_witness :
  ∃ self, (AABBox_init (PyOther "7") (run [NewSphere])).1
          = run [NewSphere] ++ [self]
          ∧ parameters self = ∅.
Proof.
  destruct (AABBox_refused_argument (run [NewSphere]) (PyOther "7")
              (ValueError "Cannot convert '7' to GLSL's vec3") eq_refl)
    as (repr & self & _ & _ & Hst & _ & _ & Hpar & _).
  exists self. split; [exact Hst | exact Hpar].
Defined.

(** ** Operators with fewer than two children *)

Lemma index_neg_2_short {A} (l : list A) :
  length l < 2 → index_neg 2 l = Raise (IndexError "tuple index out of range").
Proof. intros H. unfold index_neg. by rewrite decide_False by lia. Qed.

Lemma short_operator_sdist (st : store) (o : SDF) :
  wf_store st → Forall (λ r, r < length st) (objects o) →
  short_operator o →
  sdist st o = Raise (IndexError "tuple index out of range").
Proof.
  intros Hst Hobj [Hop Hlen]. unfold sdist.
  destruct (cls o); try discriminate Hop;
    unfold SDFOperator_sdist, SmoothUnion_sdist;
    rewrite mapM_id_of_wf by done; simpl;
    by rewrite index_neg_2_short.
Qed.

Lemma short_operator_declaration (st : store) (i : nat) (o : SDF) :
  wf_store st → st !! i = Some o → short_operator o →
  declaration st o = Raise (IndexError "tuple index out of range").
Proof.
  intros Hst Ho Hshort.
  destruct (declaration_fields_total st i o Hst Ho) as [fs Hfs].
  unfold declaration. rewrite Hfs. simpl.
  rewrite short_operator_sdist; try done.
  destruct (proj1 (wf_store_lookup st) Hst i o Ho) as (_ & Hobj & _).
  pose proof (lookup_lt_Some _ _ _ Ho) as Hi.
  eapply Forall_impl; [exact Hobj|]. simpl. intros r Hr. lia.
Qed.

Lemma short_operator_built (st : store) (self : SDF) (p : store * result ref) :
  wf_store st → wf_store p.1 →
  p = (st ++ [self], Ok (length st)) →
  short_operator self →
  p.2 = Ok (length st)
  ∧ sdist p.1 self = Raise (IndexError "tuple index out of range")
  ∧ declaration p.1 self = Raise (IndexError "tuple index out of range").
Proof.
  intros Hst Hwf -> Hshort. simpl in *. split; [done|].
  assert ((st ++ [self]) !! length st = Some self) as Ho
    by (by rewrite list_lookup_middle).
  split; [|by eapply short_operator_declaration].
  apply short_operator_sdist; try done.
  destruct (proj1 (wf_store_lookup _) Hwf _ _ Ho) as (_ & Hobj & _).
  eapply Forall_impl; [exact Hobj|]. simpl. intros r Hr.
  rewrite length_app. simpl. lia.
Qed.

(** X6.  A [Union], an [Intersection] or a [SmoothUnion] of one child
    or of none is built without complaint; it is its distance body, and
    with it its declaration, that raises [IndexError]. *)
Theorem operator_with_too_few_children (st : store) (k : string)
    (args : list ref) :
  wf_store st → Forall (λ r, r < length st) args → length args < 2 →
  ∀ p, p ∈ [Union_init args st; Intersection_init args st;
            SmoothUnion_init k args st] →
  ∃ self,
    p = (st ++ [self], Ok (length st))
    ∧ objects self = args
    ∧ sdist p.1 self = Raise (IndexError "tuple index out of range")
    ∧ declaration p.1 self = Raise (IndexError "tuple index out of range").
Proof.
  intros Hst Hargs Hlen p Hp.
  assert (∃ self, p = (st ++ [self], Ok (length st)) ∧ objects self = args
                  ∧ is_operator (cls self) = true ∧ wf_store p.1)
    as (self & Hpe & Hobj & Hop & Hwf).
  { set_unfold in Hp. destruct Hp as [->|[->|[->|[]]]].
    - destruct (SDFOperator_init_Ok Cls.Union "min" args st Hst Hargs)
        as [Hinit Hwf].
      unfold Union_init. rewrite Hinit. by eexists.
    - destruct (SDFOperator_init_Ok Cls.Intersection "max" args st Hst Hargs)
        as [Hinit Hwf].
      unfold Intersection_init. rewrite Hinit. by eexists.
    - pose proof (grows_wf _ _ (SmoothUnion_init_grows k args st) Hst) as Hwf.
      rewrite SmoothUnion_init_Ok in Hwf |- * by done. by eexists. }
  exists self. split; [done|]. split; [done|].
  apply (short_operator_built st self p Hst Hwf Hpe).
  split; [done|]. by rewrite Hobj.
Qed.

Lemma operator_with_too_few_children_witness :
  ∃ self, Union_init [0] (run [NewSphere]) = (run [NewSphere] ++ [self], Ok 1)
          ∧ sdist (Union_init [0] (run [NewSphere])).1 self
            = Raise (IndexError "tuple index out of range").
Proof.
  destruct (operator_with_too_few_children (run [NewSphere]) "1" [0])
    with (p := Union_init [0] (run [NewSphere]))
    as (self & Hp & _ & Hs & _).
  - apply (bool_decide_unpack _). by vm_compute.
  - repeat constructor.
  - simpl. lia.
  - set_solver.
  - exists self. split; [exact Hp | exact Hs].
Defined.

(** ** When process fails *)

Lemma mapM_first_raise {A B} (f : A → result B) (e : exn) (l : list A) :
  Forall (λ x, (∃ y, f x = Ok y) ∨ f x = Raise e) l →
  Exists (λ x, f x = Raise e) l →
  mapM f l = Raise e.
Proof.
  induction 1 as [|x l Hx Hl IH]; intros Hex; [by inversion Hex|].
  simpl. destruct Hx as [[y Hy]|Hx]; [|by rewrite Hx].
  rewrite Hy. simpl. rewrite IH; [done|].
  inversion Hex as [? ? Hx|]; subst; [congruence | done].
Qed.

Lemma arity_ok_not_short (o : SDF) : arity_ok o ↔ ¬ short_operator o.
Proof.
  unfold arity_ok, short_operator. split.
  - intros H [Hop Hlen]. specialize (H Hop). lia.
  - intros H Hop. destruct (decide (2 ≤ length (objects o))); [done|].
    exfalso. apply H. split; [done | lia].
Qed.

Lemma sdf_types_raises (st : store) :
  wf_store st → Exists short_operator st →
  sdf_types st = Raise (IndexError "tuple index out of range").
Proof.
  intros Hst Hex. unfold sdf_types.
  rewrite (mapM_first_raise _ (IndexError "tuple index out of range")); [done| |].
  - apply Forall_lookup. intros i o Ho.
    destruct (decide (short_operator o)) as [Hs|Hs].
    + right. by eapply short_operator_declaration.
    + left. apply (declaration_total st i o Hst Ho).
      by apply arity_ok_not_short.
  - apply Exists_exists in Hex as (o & Ho & Hs).
    apply Exists_exists. exists o. split; [done|].
    apply list_elem_of_lookup in Ho as [i Ho].
    by eapply short_operator_declaration.
Qed.

Lemma resolve_root_store (sc : Scene) (st : store) :
  (resolve_root sc st).1.2 = st
  ∨ (sdf sc = None
     ∧ (resolve_root sc st).1.2
       = st ++ [mkSDF (length st) Cls.Emptiness ∅ (Some "vec3(0, 0, 0)")
                      (Some "vec4(0, 0, 0, 1)") "1" [] ""]).
Proof. unfold resolve_root. destruct (sdf sc); simpl; auto. Qed.

(** X7.  On the store of a run and a scene whose root, if set, is an
    object of it, [process] has two outcomes: it returns its text when
    every operator in the list has two children or more, and raises
    [IndexError] when one has fewer, wherever that operator is and
    whether or not the root reaches it. *)
Theorem process_outcome (tpl : string) (sc : Scene) (st : store) :
  wf_store st →
  (∀ r, sdf sc = Some r → r < length st) →
  ((∃ out, (process tpl sc st).2 = Ok out) ↔ Forall arity_ok st)
  ∧ ((process tpl sc st).2 = Raise (IndexError "tuple index out of range")
     ↔ Exists short_operator st).
Proof.
  intros Hst Hroot.
  assert (Exists short_operator st →
          (process tpl sc st).2 = Raise (IndexError "tuple index out of range"))
    as Hraise.
  { intros Hex. unfold process.
    pose proof (process_grows tpl sc st) as Hg. rewrite process_store in Hg.
    pose proof (grows_wf _ _ Hg Hst) as Hwf.
    assert (Exists short_operator (resolve_root sc st).1.2) as Hex'.
    { destruct (resolve_root_store sc st) as [->|[_ ->]]; [done|].
      apply Exists_app. by left. }
    destruct (resolve_root sc st) as [[sc' st'] root]. simpl in *.
    by rewrite sdf_types_raises. }
  assert (Forall arity_ok st ∨ Exists short_operator st) as Hdec.
  { destruct (decide (Forall arity_ok st)) as [?|Hn]; [by left|right].
    apply not_Forall_Exists in Hn; [|apply _].
    eapply Exists_impl; [exact Hn|]. intros o Ho.
    destruct (decide (short_operator o)); [done|].
    exfalso. apply Ho. by apply arity_ok_not_short. }
  split; split.
  - intros [out Hout]. destruct Hdec as [?|Hex]; [done|].
    rewrite (Hraise Hex) in Hout. discriminate.
  - intros Har. by apply process_returns.
  - intros Hr. destruct Hdec as [Har|?]; [|done].
    destruct (process_returns tpl sc st Hst Har Hroot) as [out Hout].
    rewrite Hout in Hr. discriminate.
  - apply Hraise.
Qed.

Lemma process_outcome_witness :
  (process sample_template (mkScene None (Some 0)) union_of_one).2
  = Raise (IndexError "tuple index out of range").
Proof.
  apply (process_outcome sample_template (mkScene None (Some 0)) union_of_one).
  - apply run_wf.
  - intros r [= <-]. vm_compute. lia.
  - apply Exists_cons_tl, Exists_cons_hd. split; [reflexivity | simpl; lia].
Defined.

(** X8.  [process] is made once more without effect: the scene and the
    store it leaves are a fixed point, on which it gives the same
    outcome again, and a scene whose root is set never adds an object
    to the list. *)
Theorem process_again (tpl : string) (sc : Scene) (st : store) :
  process tpl (process tpl sc st).1.1 (process tpl sc st).1.2
  = process tpl sc st
  ∧ (∀ r, sdf sc = Some r → (process tpl sc st).1 = (sc, st)).
Proof.
  unfold process, resolve_root.
  destruct (sdf sc) as [r|] eqn:Hsdf; simpl.
  - rewrite Hsdf. simpl. split; [done|]. by intros ? _.
  - split; [done|]. by intros ? [=].
Qed.

(** ** Declarations are fixed at construction *)

Lemma mapM_ext {A B} (f g : A → result B) (l : list A) :
  Forall (λ x, f x = g x) l → mapM f l = mapM g l.
Proof.
  induction 1 as [|x l Hx _ IH]; [done|]. simpl. by rewrite Hx, IH.
Qed.

Lemma id_of_agree (st st' : store) (r : ref) :
  id <$> st' !! r = id <$> st !! r → id_of st' r = id_of st r.
Proof.
  unfold id_of. destruct (st' !! r), (st !! r); simpl; try done.
  by intros [= ->].
Qed.

Lemma getitem0_agree (st st' : store) (i : nat) (p : param) :
  (∀ r, r < i → id <$> st' !! r = id <$> st !! r) →
  param_below i p → getitem0 st' p = getitem0 st p.
Proof.
  intros Hag Hp. destruct p as [ty v|r]; simpl; [done|].
  specialize (Hag r Hp). unfold glsl_struct_name.
  destruct (st' !! r), (st !! r); simpl in *; try done.
  by injection Hag as ->.
Qed.

Lemma sdist_agree (st st' : store) (i : nat) (o o' : SDF) :
  (∀ r, r < i → id <$> st' !! r = id <$> st !! r) →
  Forall (λ r, r < i) (objects o) →
  same_frame o' o →
  sdist st' o' = sdist st o.
Proof.
  intros Hag Hobj (_ & Hcls & _ & Hob & Hf).
  assert (mapM (id_of st') (objects o) = mapM (id_of st) (objects o)) as Hids.
  { apply mapM_ext. eapply Forall_impl; [exact Hobj|].
    intros r Hr. by apply id_of_agree, Hag. }
  unfold sdist, SDFOperator_sdist, SmoothUnion_sdist.
  by rewrite Hcls, Hob, Hf, Hids.
Qed.

Lemma declaration_agree (st st' : store) (i : nat) (o o' : SDF) :
  (∀ r, r < i → id <$> st' !! r = id <$> st !! r) →
  wf_node i o →
  same_frame o' o →
  declaration st' o' = declaration st o.
Proof.
  intros Hag (_ & Hobj & Hpar) Hfr.
  pose proof Hfr as (Hid & _ & Hp & _ & _).
  unfold declaration, declaration_fields, glsl_struct_name.
  rewrite (sdist_agree st st' i o o') by done.
  rewrite Hid, Hp.
  rewrite (mapM_ext
             (λ param, p ← of_option (parameters o !! param);
                       ty ← getitem0 st' p; Ok (ty, param))
             (λ param, p ← of_option (parameters o !! param);
                       ty ← getitem0 st p; Ok (ty, param))); [done|].
  apply Forall_forall. intros k Hk.
  destruct (parameters o !! k) as [p|] eqn:Hkp; simpl; [|done].
  by rewrite (getitem0_agree st st' i p Hag (Hpar k p Hkp)).
Qed.

(** X9.  What a script does after an object is built never changes the
    declaration of that object: transforms are not declared, and the
    children a declaration names keep their ids. *)
Theorem declaration_fixed_at_construction (script more : list call)
    (i : nat) (o : SDF) :
  run script !! i = Some o →
  ∃ o', run (script ++ more) !! i = Some o'
        ∧ declaration (run (script ++ more)) o' = declaration (run script) o.
Proof.
  intros Ho. unfold run in *. rewrite run_from_app.
  destruct (run_from_lookup (run_from [] script) more i o Ho)
    as (o' & Ho' & Hfr).
  exists o'. split; [done|].
  apply (declaration_agree _ _ i); [|by apply (proj1 (wf_store_lookup _)
                                                 (run_wf script))|done].
  intros r Hr. pose proof (lookup_lt_Some _ _ _ Ho) as Hi.
  destruct (lookup_lt_is_Some_2 (run_from [] script) r) as [c Hc]; [lia|].
  destruct (run_from_lookup (run_from [] script) more r c Hc)
    as (c' & Hc' & Hid & _).
  rewrite Hc. rewrite Hc'. simpl. by rewrite Hid.
Qed.

Lemma declaration_fixed_at_construction_witness :
  ∃ o', run ([NewSphere; NewSphere; NewUnion [0; 1]]
             ++ [Scaled 2 "3"; Translated 0 (PyStr "t"); NewPlane]) !! 2
        = Some o'
        ∧ declaration
            (run ([NewSphere; NewSphere; NewUnion [0; 1]]
                  ++ [Scaled 2 "3"; Translated 0 (PyStr "t"); NewPlane])) o'
          = declaration (run [NewSphere; NewSphere; NewUnion [0; 1]])
              (mkSDF 2 Cls.Union (children_dict [(0, 0); (1, 1)])
                     (Some "vec3(0, 0, 0)") (Some "vec4(0, 0, 0, 1)") "1"
                     [0; 1] "min").
Proof.
  apply (declaration_fixed_at_construction
           [NewSphere; NewSphere; NewUnion [0; 1]]
           [Scaled 2 "3"; Translated 0 (PyStr "t"); NewPlane] 2).
  by vm_compute.
Defined.

(** ** Initialisation on the store of a run *)

(** X10.  On the store of any run the children of an object were built
    before it, so the initialisation of every object comes to an end
    and returns its text, with no more nesting than there are objects
    in the list. *)
Theorem initialisation_returns_on_runs (script : list call) (i : nat) (o : SDF) :
  run script !! i = Some o →
  Forall (λ r, r < i) (objects o)
  ∧ (∀ key r, parameters o !! key = Some (Child r) → r < i)
  ∧ ∃ text, initialisation (length (run script)) (run script) o = Ok text.
Proof.
  intros Ho.
  destruct (proj1 (wf_store_lookup _) (run_wf script) i o Ho)
    as (_ & Hobj & Hpar).
  split; [done|]. split.
  - intros key r Hk. exact (Hpar key (Child r) Hk).
  - apply (initialisation_total _ _ i); [apply run_wf | done |].
    by eapply lookup_lt_Some.
Qed.

Lemma initialisation_returns_on_runs_witness :
  ∃ text, initialisation (length smooth_scene) smooth_scene smooth_union_node
          = Ok text.
Proof.
  apply (initialisation_returns_on_runs
           [NewSphere;
            NewAABBox (PyIterable ["1"; "1"; "1"]);
            Translated 1 (PyIterable ["2"; "0"; "0"]);
            NewCylinder "1" "2";
            NewSmoothUnion "0.5" [0; 1; 2]] 3 smooth_union_node).
  by vm_compute.
Defined.

(** ** Children are read when the text is made *)

Lemma sorted_o1_o2 (a b : param) :
  sorted (<[ "o1" := a ]> {[ "o2" := b ]}) = ["o1"; "o2"].
Proof. by vm_compute. Qed.

Lemma sorted_radius_height2 (a b : param) :
  sorted (<[ "radius" := a ]> {[ "height2" := b ]}) = ["height2"; "radius"].
Proof. by vm_compute. Qed.

(** X11.  The initialisation of a [Difference] is its struct name
    applied to the initialisation of its first child, that of its
    second child and its own transform, the children being read from
    the store as it is when the text is made: a transform given to a
    child after the [Difference] was built shows in it. *)
Theorem Difference_initialisation (st : store) (i fuel : nat) (o : SDF)
    (a b : ref) :
  wf_store st → st !! i = Some o →
  parameters o = <[ "o1" := Child a ]> {[ "o2" := Child b ]} →
  i ≤ fuel →
  ∃ A B ta tb,
    st !! a = Some A ∧ st !! b = Some B
    ∧ initialisation fuel st A = Ok ta
    ∧ initialisation fuel st B = Ok tb
    ∧ initialisation (S fuel) st o
      = Ok (glsl_struct_name o +:+ "(" +:+ ta +:+ ", " +:+ tb +:+ ", "
            +:+ transform_text o).
Proof.
  intros Hst Ho Hpar Hfuel.
  destruct (proj1 (wf_store_lookup st) Hst i o Ho) as (_ & _ & Hbelow).
  pose proof (lookup_lt_Some _ _ _ Ho) as Hi.
  assert (a < i) as Ha.
  { apply (Hbelow "o1" (Child a)). rewrite Hpar. apply lookup_insert_eq. }
  assert (b < i) as Hb.
  { apply (Hbelow "o2" (Child b)). rewrite Hpar.
    rewrite lookup_insert_ne by done. apply lookup_singleton_eq. }
  destruct (lookup_lt_is_Some_2 st a) as [A HA]; [lia|].
  destruct (lookup_lt_is_Some_2 st b) as [B HB]; [lia|].
  destruct (initialisation_total st fuel a A Hst HA) as [ta Hta]; [lia|].
  destruct (initialisation_total st fuel b B Hst HB) as [tb Htb]; [lia|].
  exists A, B, ta, tb. do 4 (split; [done|]).
  unfold initialisation at 1. rewrite initialisation_values_step.
  rewrite Hpar, sorted_o1_o2. simpl.
  rewrite lookup_insert_eq. simpl. rewrite HA. simpl. rewrite Hta. simpl.
  rewrite lookup_insert_ne by done. rewrite lookup_singleton_eq. simpl.
  rewrite HB. simpl. rewrite Htb. simpl. f_equal.
  by rewrite !app_assoc_str.
Qed.

Lemma Difference_initialisation_witness :
  ∃ o,
    run [NewSphere; NewSphere; NewDifference 0 1; Scaled 0 "2"] !! 2 = Some o
    ∧ initialisation 3
        (run [NewSphere; NewSphere; NewDifference 0 1; Scaled 0 "2"]) o
      = Ok "SDF2(SDF0(Transform(vec4(0, 0, 0, 1), vec3(0, 0, 0), (1 * (2)))), SDF1(Transform(vec4(0, 0, 0, 1), vec3(0, 0, 0), 1)), Transform(vec4(0, 0, 0, 1), vec3(0, 0, 0), 1))".
Proof.
  destruct (Difference_initialisation
              (run [NewSphere; NewSphere; NewDifference 0 1; Scaled 0 "2"])
              2 2
              (mkSDF 2 Cls.Difference
                     (<[ "o1" := Child 0 ]> {[ "o2" := Child 1 ]})
                     (Some "vec3(0, 0, 0)") (Some "vec4(0, 0, 0, 1)") "1" [] "")
              0 1)
    as (A & B & ta & tb & HA & HB & Hta & Htb & Hinit).
  - apply run_wf.
  - reflexivity.
  - reflexivity.
  - lia.
  - exists (mkSDF 2 Cls.Difference
                   (<[ "o1" := Child 0 ]> {[ "o2" := Child 1 ]})
                   (Some "vec3(0, 0, 0)") (Some "vec4(0, 0, 0, 1)") "1" [] "").
    split; [reflexivity|].
    rewrite Hinit. injection HA as <-. injection HB as <-.
    vm_compute in Hta. vm_compute in Htb.
    injection Hta as <-. injection Htb as <-. reflexivity.
Defined.

(** X12.  [Cylinder] never fails, and its two parameters are emitted
    by name, [height2] before [radius], against the order of the
    arguments of the constructor: in the fields of the declaration and
    in the values of the initialisation alike. *)
Theorem Cylinder_emits_height2_first (radius height2 : string) (st st' : store)
    (fuel : nat) :
  ∃ self,
    Cylinder_init radius height2 st = (st ++ [self], Ok (length st))
    ∧ declaration_fields st' self
      = Ok [("float", "height2"); ("float", "radius")]
    ∧ initialisation (S fuel) st' self
      = Ok ("SDF" +:+ str_nat (length st) +:+ "(" +:+ height2 +:+ ", "
            +:+ radius
            +:+ ", Transform(vec4(0, 0, 0, 1), vec3(0, 0, 0), 1))").
Proof.
  eexists. split.
  { unfold Cylinder_init. simpl.
    by rewrite alter_last, update_parameters_fresh. }
  split.
  - unfold declaration_fields. simpl. rewrite sorted_radius_height2. simpl.
    rewrite lookup_insert_ne by done. rewrite lookup_singleton_eq. simpl.
    by rewrite lookup_insert_eq.
  - unfold initialisation. rewrite initialisation_values_step. simpl.
    rewrite sorted_radius_height2. simpl.
    rewrite lookup_insert_ne by done. rewrite lookup_singleton_eq. simpl.
    rewrite lookup_insert_eq. simpl. f_equal.
    unfold glsl_struct_name, transform_text. simpl.
    by rewrite !app_assoc_str.
Qed.

(** ** The text process prints *)

Lemma readline_app (s : string) : (readline s).1 +:+ (readline s).2 = s.
Proof.
  induction s as [|c s IH]; [done|]. simpl.
  destruct (Ascii.eqb c "010"); [done|].
  destruct (readline s) as [l rest]. simpl in *.
  change (String c (l +:+ rest) = String c s). by rewrite IH.
Qed.

Lemma readline_first_line (s : string) (i : nat) :
  String.get i (readline s).1 = Some LF →
  S i = String.length (readline s).1.
Proof.
  revert i. induction s as [|c s IH]; intros i; [done|]. simpl.
  destruct (Ascii.eqb c "010") eqn:Hc.
  - destruct i as [|i]; simpl; [done|]. by destruct i.
  - destruct (readline s) as [l rest]. simpl in *.
    destruct i as [|i]; simpl.
    + intros [= ->]. by rewrite Ascii.eqb_refl in Hc.
    + intros Hi. by rewrite <- (IH i Hi).
Qed.

Lemma escape_newlines_continues (s : string) (i : nat) :
  String.get i (escape_newlines s) = Some LF →
  ∃ j, i = S j ∧ String.get j (escape_newlines s) = Some backslash.
Proof.
  revert i. induction s as [|c s IH]; intros i; [by destruct i|]. simpl.
  destruct (Ascii.eqb c "010") eqn:Hc.
  - apply Ascii.eqb_eq in Hc as ->.
    destruct i as [|[|i]]; simpl; [done|by exists 0|].
    intros (j & -> & Hj)%IH. by exists (S (S j)).
  - destruct i as [|i]; simpl.
    + intros [= ->]. by rewrite Ascii.eqb_refl in Hc.
    + intros (j & -> & Hj)%IH. by exists (S j).
Qed.

Lemma readline_ends (s : string) :
  (∃ line, (readline s).1 = line +:+ nl) ∨ (readline s).2 = "".
Proof.
  induction s as [|c s IH]; [by right|]. simpl.
  destruct (Ascii.eqb c "010") eqn:Hc.
  - apply Ascii.eqb_eq in Hc as ->. left. by exists "".
  - destruct (readline s) as [l rest]. simpl in *.
    destruct IH as [[line ->]| ->]; [left|by right].
    by exists (String c line).
Qed.

Lemma resolve_root_sdf (sc : Scene) (st : store) :
  sdf (resolve_root sc st).1.1 = Some (resolve_root sc st).2
  ∧ (resolve_root sc st).2 = default (length st) (sdf sc).
Proof. unfold resolve_root. by destruct (sdf sc) eqn:H. Qed.

(** X13.  The text [process] prints is the first line of the template,
    the two defines, and the rest of the template.  The first line is
    the template up to and with its first line feed (the whole of it
    when it has none): first line and rest, joined, are the template
    again, the first line has no line feed but at its end, and it ends
    in one unless nothing is left.  The first define holds the
    declarations of all objects of the list and the second the final
    statement for the root of the scene, the root that was set or else
    the new [Emptiness]; within both, every line feed has a backslash
    before it, so that each define goes on to its end. *)
Theorem process_text_layout (tpl : string) (sc : Scene) (st : store)
    (out : string) :
  (process tpl sc st).2 = Ok out →
  ∃ first rest types scene root,
    first +:+ rest = tpl
    ∧ (∀ i, String.get i first = Some LF → S i = String.length first)
    ∧ ((∃ line, first = line +:+ nl) ∨ rest = "")
    ∧ root = default (length st) (sdf sc)
    ∧ sdf (process tpl sc st).1.1 = Some root
    ∧ sdf_types (process tpl sc st).1.2 = Ok types
    ∧ sdscene (process tpl sc st).1.2 root = Ok scene
    ∧ out = first
            +:+ "#define TEMPLATE_SDFTYPES \" +:+ nl
            +:+ escape_newlines types +:+ nl
            +:+ "#define TEMPLATE_SDSCENE \" +:+ nl
            +:+ escape_newlines scene +:+ nl
            +:+ rest
    ∧ (∀ body i, body ∈ [escape_newlines types; escape_newlines scene] →
         String.get i body = Some LF →
         ∃ j, i = S j ∧ String.get j body = Some backslash).
Proof.
  unfold process.
  pose proof (resolve_root_sdf sc st) as [Hsdf Hroot].
  destruct (resolve_root sc st) as [[sc' st'] root]. simpl in *.
  destruct (sdf_types st') as [types| |] eqn:Htypes; simpl; try done.
  destruct (sdscene st' root) as [scene| |] eqn:Hscene; simpl; try done.
  pose proof (readline_app tpl) as Happ.
  pose proof (readline_first_line tpl) as Hfirst.
  pose proof (readline_ends tpl) as Hends.
  destruct (readline tpl) as [first rest]. simpl in *.
  intros [= <-]. exists first, rest, types, scene, root.
  do 8 (split; [done|]).
  intros body i Hb. set_unfold in Hb.
  destruct Hb as [->|[->|[]]]; apply escape_newlines_continues.
Qed.

Lemma process_text_layout_witness :
  ∃ out first rest scene,
    (process sample_template (mkScene None None) (run [NewSphere])).2 = Ok out
    ∧ first +:+ rest = sample_template
    ∧ ((∃ line, first = line +:+ nl) ∨ rest = "")
    ∧ sdscene (process sample_template (mkScene None None)
                 (run [NewSphere])).1.2 1 = Ok scene.
Proof.
  assert (∃ out, (process sample_template (mkScene None None)
                     (run [NewSphere])).2 = Ok out) as [out Hout]
    by (eexists; vm_compute; reflexivity).
  destruct (process_text_layout sample_template (mkScene None None)
              (run [NewSphere]) out Hout)
    as (first & rest & types & scene & root & Happ & _ & Hends & Hroot
        & _ & _ & Hscene & _).
  exists out, first, rest, scene.
  split; [exact Hout|]. split; [exact Happ|]. split; [exact Hends|].
  rewrite Hroot in Hscene. exact Hscene.
Defined.

(** ** The parameters of an operator *)

#[local] Instance child_key_Inj : Inj (=) (=) child_key.
Proof. intros n m. apply child_key_inj. Qed.

Lemma children_dict_keys (args : list ref) (key : string) :
  is_Some (children_dict (map (λ r, (r, r)) args) !! key)
  ↔ ∃ r, r ∈ args ∧ key = child_key r.
Proof.
  split.
  - intros [p (kv & Hkv & -> & _)%children_dict_only_keys].
    apply list_elem_of_In, in_map_iff in Hkv as (r & <- & Hr).
    exists r. split; [by apply list_elem_of_In | done].
  - intros (r & Hr & ->). rewrite children_dict_own_keys by done. by eexists.
Qed.

(** X14.  A [Union] or an [Intersection] has one parameter for every
    distinct child and no other: a child given twice is stored once,
    under the key of its id, and two children never share a key.  The
    declaration has as many fields as there are distinct children,
    while the distance body names a child as often as it was given. *)
Theorem operator_parameters_are_distinct_children (st : store)
    (args : list ref) :
  wf_store st → Forall (λ r, r < length st) args →
  ∀ p, p ∈ [Union_init args st; Intersection_init args st] →
  ∃ self fs,
    p = (st ++ [self], Ok (length st))
    ∧ objects self = args
    ∧ (∀ key, is_Some (parameters self !! key)
              ↔ ∃ r, r ∈ args ∧ key = child_key r)
    ∧ (∀ r r', child_key r = child_key r' → r = r')
    ∧ sorted (parameters self) ≡ₚ child_key <$> remove_dups args
    ∧ declaration_fields p.1 self = Ok fs
    ∧ length fs = length (remove_dups args).
Proof.
  intros Hst Hargs p Hp.
  assert (∃ c f, p = SDFOperator_init c f args st) as (c & f & ->).
  { set_unfold in Hp. destruct Hp as [->|[->|[]]]; by eexists _, _. }
  destruct (SDFOperator_init_Ok c f args st Hst Hargs) as [Hinit Hwf].
  rewrite Hinit. simpl.
  set (self := mkSDF (length st) c (children_dict (map (λ r, (r, r)) args))
                     (Some "vec3(0, 0, 0)") (Some "vec4(0, 0, 0, 1)") "1"
                     args f) in *.
  assert (sorted (parameters self) ≡ₚ child_key <$> remove_dups args) as Hperm.
  { destruct (sorted_spec (parameters self)) as (_ & Hnd & Hdom).
    apply NoDup_Permutation; [done| |].
    - apply (NoDup_fmap_2 child_key), NoDup_remove_dups.
    - intros key. rewrite Hdom. simpl. rewrite children_dict_keys.
      rewrite list_elem_of_fmap. split.
      + intros (r & Hr & ->). exists r. split; [done|].
        exact (proj2 (elem_of_remove_dups _ _) Hr).
      + intros (r & -> & Hr). exists r. split; [|done].
        exact (proj1 (elem_of_remove_dups _ _) Hr). }
  destruct (declaration_fields_total (st ++ [self]) (length st) self Hwf)
    as [fs Hfs]; [by rewrite list_lookup_middle|].
  exists self, fs. split; [done|]. split; [done|].
  split; [apply children_dict_keys|].
  split; [apply child_key_inj|]. split; [done|]. split; [done|].
  destruct (declaration_fields_spec _ _ _ Hfs) as [Hnames _].
  rewrite <- (length_fmap snd fs), Hnames, Hperm. by rewrite length_fmap.
Qed.

Lemma operator_parameters_are_distinct_children_witness :
  ∃ self fs,
    Union_init [0; 0; 1] (run [NewSphere; NewSphere])
    = (run [NewSphere; NewSphere] ++ [self], Ok 2)
    ∧ declaration_fields (Union_init [0; 0; 1] (run [NewSphere; NewSphere])).1
        self = Ok fs
    ∧ length fs = 2.
Proof.
  destruct (operator_parameters_are_distinct_children
              (run [NewSphere; NewSphere]) [0; 0; 1])
    with (p := Union_init [0; 0; 1] (run [NewSphere; NewSphere]))
    as (self & fs & Hp & _ & _ & _ & _ & Hfs & Hlen).
  - apply (bool_decide_unpack _). by vm_compute.
  - repeat constructor.
  - set_solver.
  - exists self, fs. split; [exact Hp|]. split; [exact Hfs | exact Hlen].
Defined.

(** ** The blend constant comes first *)

Lemma k_le_child_key (r : nat) : String.le "k" (child_key r).
Proof. by vm_compute. Qed.

Lemma sorted_insert_least (d : gmap string param) (key : string) (p : param) :
  d !! key = None →
  (∀ x, is_Some (d !! x) → String.le key x) →
  sorted (<[ key := p ]> d) = key :: sorted d.
Proof.
  intros Hnone Hleast.
  destruct (sorted_spec d) as (Hs & _ & Hdom).
  apply (StronglySorted_unique String.le).
  - apply sorted_spec.
  - constructor; [done|]. apply Forall_forall. intros x Hx.
    by apply Hleast, Hdom.
  - unfold sorted. rewrite !merge_sort_Permutation.
    by rewrite map_to_list_insert.
Qed.

(** X15.  The parameter [k] of a [SmoothUnion] sorts before the keys of
    all its children: it is the first field of the declaration and the
    first value of the initialisation, the children following. *)
Theorem SmoothUnion_k_comes_first (st : store) (k : string) (args : list ref) :
  wf_store st → Forall (λ r, r < length st) args →
  ∃ self fs,
    SmoothUnion_init k args st = (st ++ [self], Ok (length st))
    ∧ sorted (parameters self)
      = "k" :: sorted (children_dict (map (λ r, (r, r)) args))
    ∧ declaration_fields (st ++ [self]) self = Ok fs
    ∧ head fs = Some ("float", "k")
    ∧ (∀ fuel vs, initialisation_values fuel (st ++ [self]) self = Ok vs →
         head vs = Some ("k", k)).
Proof.
  intros Hst Hargs.
  pose proof (grows_wf _ _ (SmoothUnion_init_grows k args st) Hst) as Hwf.
  rewrite SmoothUnion_init_Ok in Hwf by done. simpl in Hwf.
  set (self := mkSDF (length st) Cls.SmoothUnion
                     (<[ "k" := Lit "float" k ]>
                        (children_dict (map (λ r, (r, r)) args)))
                     (Some "vec3(0, 0, 0)") (Some "vec4(0, 0, 0, 1)") "1"
                     args "smin") in *.
  assert (sorted (parameters self)
          = "k" :: sorted (children_dict (map (λ r, (r, r)) args))) as Hsorted.
  { apply sorted_insert_least; [apply children_dict_no_k|].
    intros x [p (kv & _ & -> & _)%children_dict_only_keys].
    apply k_le_child_key. }
  destruct (declaration_fields_total (st ++ [self]) (length st) self Hwf)
    as [fs Hfs]; [by rewrite list_lookup_middle|].
  exists self, fs. split; [by apply SmoothUnion_init_Ok|].
  split; [done|]. split; [done|]. split.
  - revert Hfs. unfold declaration_fields. rewrite Hsorted. simpl.
    rewrite lookup_insert_eq. simpl.
    destruct (mapM _ (sorted _)) as [rest| |]; simpl; [|done..].
    by intros [= <-].
  - intros [|fuel] vs; [done|]. rewrite initialisation_values_step.
    rewrite Hsorted. simpl. rewrite lookup_insert_eq. simpl.
    destruct (mapM _ (sorted _)) as [rest| |]; simpl; [|done..].
    by intros [= <-].
Qed.

Lemma SmoothUnion_k_comes_first_witness :
  ∃ self,
    SmoothUnion_init "0.5" [0; 1] (run [NewSphere; NewSphere])
    = (run [NewSphere; NewSphere] ++ [self], Ok 2)
    ∧ sorted (parameters self) = ["k"; "o0"; "o1"].
Proof.
  destruct (SmoothUnion_k_comes_first (run [NewSphere; NewSphere]) "0.5" [0; 1])
    as (self & fs & Hinit & Hsorted & _).
  - apply (bool_decide_unpack _). by vm_compute.
  - repeat constructor.
  - exists self. split; [exact Hinit|]. rewrite Hsorted. by vm_compute.
Defined.
